(** * vg: sets of variation graphs on disk (src/vg_set.cpp)

    A shallow embedding of [VGset]: the two traversals over the file list
    ([transform], [for_each]), identifier-space merging ([merge_id_space]),
    the path splitter feeding the succinct index ([to_xg]), the buffered
    k-mer indexer ([index_kmers]) and the text export of k-mer positions
    ([write_gcsa_out_old], [write_gcsa_out_handle]). *)

From Stdlib Require Import ZArith Lia Ascii String.
From stdpp Require Import gmap strings list fin_maps pretty sorting.

Local Open Scope Z_scope.

(** ** Signed 64-bit arithmetic ([int64_t]) *)

Module Int64.

Definition min_signed : Z := - 2 ^ 63.
Definition max_signed : Z := 2 ^ 63 - 1.

(** Two's-complement wrap-around of a mathematical integer. *)
Definition wrap (z : Z) : Z := (z + 2 ^ 63) mod 2 ^ 64 - 2 ^ 63.

Definition add (x y : Z) : Z := wrap (x + y).

Definition in_range (z : Z) : Prop := min_signed <= z <= max_signed.

End Int64.

(** ** Data model: the graph messages and the in-memory graph *)

Record Node := { node_sequence : string; node_id : Z }.

Record Edge := { edge_from : Z; edge_to : Z }.

(** One step of a path: the node it visits, and its rank in the path
    (rank 0 means that no rank was given). *)
Record Mapping := { mapping_node_id : Z; mapping_offset : Z; mapping_rank : Z }.

Record Path := { path_name : string; path_mapping : list Mapping }.

Record Graph := { graph_node : list Node; graph_edge : list Edge; graph_path : list Path }.

Definition empty_graph : Graph :=
  {| graph_node := []; graph_edge := []; graph_path := [] |}.

(** The in-memory graph [VG]: a decoded [Graph] and the name given to it by
    the traversal. *)
Record VG := { vg_name : string; vg_graph : Graph }.

Definition set_name (name : string) (g : VG) : VG :=
  {| vg_name := name; vg_graph := vg_graph g |}.

Definition node_ids (g : Graph) : list Z := node_id <$> graph_node g.

(** The highest identifier of a graph, counted from 0. *)
Definition highest_id (g : Graph) : Z := foldr Z.max 0 (node_ids g).

(** Modelled from the spec: [VG::max_node_id] is declared in vg.hpp, which is
    not part of the sources at hand.  It is "that graph's highest identifier",
    counted from 0, the value the running maximum itself starts from: a graph
    without nodes has maximum 0. *)
Definition VG_max_node_id (g : VG) : Z := highest_id (vg_graph g).

Definition shift_node (by_ : Z) (n : Node) : Node :=
  {| node_sequence := node_sequence n; node_id := Int64.add (node_id n) by_ |}.

Definition shift_edge (by_ : Z) (e : Edge) : Edge :=
  {| edge_from := Int64.add (edge_from e) by_; edge_to := Int64.add (edge_to e) by_ |}.

Definition shift_mapping (by_ : Z) (m : Mapping) : Mapping :=
  {| mapping_node_id := Int64.add (mapping_node_id m) by_;
     mapping_offset := mapping_offset m;
     mapping_rank := mapping_rank m |}.

Definition shift_path (by_ : Z) (p : Path) : Path :=
  {| path_name := path_name p; path_mapping := shift_mapping by_ <$> path_mapping p |}.

(** The graph with all its node identifiers moved up; the addition is the
    one of [int64_t]. *)
Definition shift_graph (by_ : Z) (g : Graph) : Graph :=
  {| graph_node := shift_node by_ <$> graph_node g;
     graph_edge := shift_edge by_ <$> graph_edge g;
     graph_path := shift_path by_ <$> graph_path g |}.

(** Modelled from the spec: [VG::increment_node_ids] is declared in vg.hpp,
    which is not part of the sources at hand.  It "shifts all node
    identifiers upward" by the given amount, wherever the graph mentions
    them. *)
Definition VG_increment_node_ids (g : VG) (increment : Z) : VG :=
  {| vg_name := vg_name g; vg_graph := shift_graph increment (vg_graph g) |}.

(** ** The files of the set

    A file is identified with what the decoder yields from it.  The named
    files live on [disk]; [cin] is what is left to read on standard input
    (a graph read from it leaves nothing behind). *)
Record World := { disk : gmap string Graph; cin : Graph }.

(** [new VG(std::cin, ...)] and [new VG(in, ...)] after a successful open;
    [None] when [ifstream in(name)] fails. *)
Definition load (name : string) (w : World) : option (VG * World) :=
  if decide (name = "-")
  then Some ({| vg_name := ""; vg_graph := cin w |},
             {| disk := disk w; cin := empty_graph |})
  else match disk w !! name with
       | Some content => Some ({| vg_name := ""; vg_graph := content |}, w)
       | None => None
       end.

(** [ofstream out(name); g->serialize_to_ostream(out)]. *)
Definition serialize_to (name : string) (g : VG) (w : World) : World :=
  {| disk := <[name := vg_graph g]> (disk w); cin := cin w |}.

(** What a traversal leaves behind: the files, the state the action
    captured by reference, and the [ifstream::failure] thrown, if any. *)
Record Run (S : Type) := { world : World; captured : S; thrown : option string }.
Arguments world {S} _.
Arguments captured {S} _.
Arguments thrown {S} _.

Section SetIterator.

Context {S : Type}.

(** The action [std::function<void(VG* )>], with the state it captures by
    reference threaded through. *)
Variable lambda : S -> VG -> S * VG.

Fixpoint transform (filenames : list string) (s : S) (w : World) : Run S :=
  match filenames with
  | [] => {| world := w; captured := s; thrown := None |}
  | name :: rest =>
      match load name w with
      | None =>
          {| world := w; captured := s;
             thrown := Some ("failed to open " +:+ name) |}
      | Some (g, w1) =>
          let g := set_name name g in
          let '(s', g') := lambda s g in
          transform rest s' (serialize_to name g' w1)
      end
  end.

Fixpoint for_each (filenames : list string) (s : S) (w : World) : Run S :=
  match filenames with
  | [] => {| world := w; captured := s; thrown := None |}
  | name :: rest =>
      match load name w with
      | None =>
          {| world := w; captured := s;
             thrown := Some ("failed to open " +:+ name) |}
      | Some (g, w1) =>
          let g := set_name name g in
          let '(s', _) := lambda s g in
          for_each rest s' w1
      end
  end.

End SetIterator.

(** ** IdentifierSpaceMerger *)

Inductive result (A : Type) :=
  | Returned (a : A)
  | Thrown (what : string).
Arguments Returned {A} _.
Arguments Thrown {A} _.

(** The action of [merge_id_space]; the captured state is [max_node_id]. *)
Definition merge_lambda (max_node_id : Z) (g : VG) : Z * VG :=
  let g := if 0 <? max_node_id then VG_increment_node_ids g max_node_id else g in
  (VG_max_node_id g, g).

Definition merge_id_space (filenames : list string) (w : World) : World * result Z :=
  let r := transform merge_lambda filenames 0 w in
  (world r,
   match thrown r with
   | None => Returned (captured r)
   | Some what => Thrown what
   end).

(** *** What identifier merging is to achieve *)

(** What a traversal reads under a name. *)
Definition content (w : World) (name : string) : option Graph :=
  if decide (name = "-") then Some (cin w) else disk w !! name.

(** The graphs a mutating traversal writes back when it reads the graphs
    [gs] under the names [names], and the state it ends in. *)
Fixpoint thread {S : Type} (lambda : S -> VG -> S * VG) (s : S)
    (names : list string) (gs : list Graph) : S * list Graph :=
  match names, gs with
  | name :: names, g :: gs =>
      let '(s', g') := lambda s {| vg_name := name; vg_graph := g |} in
      let '(s'', gs') := thread lambda s' names gs in
      (s'', vg_graph g' :: gs')
  | _, _ => (s, [])
  end.

(** What [merge_lambda] makes of the graph it is given, under the running
    maximum [m]. *)
Definition merge_step (m : Z) (g : Graph) : Graph :=
  if 0 <? m then shift_graph m g else g.

(** Every identifier of a graph is below every identifier of the next one. *)
Definition ranges_increasing (gs : list Graph) : Prop :=
  forall i g1 g2 x y,
    gs !! i = Some g1 -> gs !! S i = Some g2 ->
    x ∈ node_ids g1 -> y ∈ node_ids g2 -> x < y.

(** The running maximum the [i]-th graph meets: 0 for the first, the highest
    identifier written back for the graph before it otherwise. *)
Definition running_maximum (written_back : list Graph) (i : nat) : Z :=
  match i with
  | O => 0
  | S j => default 0 (highest_id <$> written_back !! j)
  end.

(** The outcome of [merge_id_space] on the files [filenames], which held
    the graphs [gs]: the call returns, every file holds its graph moved by
    the running maximum it met, the ranges of the files increase, and the
    value returned is the highest identifier of the last one. *)
Definition merged (filenames : list string) (gs : list Graph) (w : World) : Prop :=
  exists w' gs' max_node_id,
    merge_id_space filenames w = (w', Returned max_node_id) /\
    Forall2 (fun name g => disk w' !! name = Some g) filenames gs' /\
    (forall i g, gs !! i = Some g ->
                 gs' !! i = Some (merge_step (running_maximum gs' i) g)) /\
    ranges_increasing gs' /\
    highest_id <$> last gs' = Some max_node_id.

Definition positive_ids (g : Graph) : Prop := Forall (fun id => 1 <= id) (node_ids g).

Definition sum_Z (l : list Z) : Z := foldr Z.add 0 l.

(** A graph of one node, for the examples. *)
Definition single_node (id : Z) : Graph :=
  {| graph_node := [{| node_sequence := "A"; node_id := id |}];
     graph_edge := []; graph_path := [] |}.

(** A graph of the nodes of the given identifiers, for the examples. *)
Definition nodes (ids : list Z) : Graph :=
  {| graph_node := (fun id => {| node_sequence := "A"; node_id := id |}) <$> ids;
     graph_edge := []; graph_path := [] |}.

(** ** PathSplitter *)

(** [std::map<int64_t, Mapping>]: the entries in strictly ascending order of
    rank, which is the order in which the map is iterated. *)
Fixpoint rank_assign (rank : Z) (m : Mapping) (table : list (Z * Mapping))
  : list (Z * Mapping) :=
  match table with
  | [] => [(rank, m)]
  | (r, m') :: rest =>
      if rank <? r then (rank, m) :: table
      else if rank =? r then (rank, m) :: rest
      else (r, m') :: rank_assign rank m rest
  end.

Fixpoint rank_lookup (rank : Z) (table : list (Z * Mapping)) : option Mapping :=
  match table with
  | [] => None
  | (r, m) :: rest => if rank =? r then Some m else rank_lookup rank rest
  end.

Definition set_rank (rank : Z) (m : Mapping) : Mapping :=
  {| mapping_node_id := mapping_node_id m;
     mapping_offset := mapping_offset m;
     mapping_rank := rank |}.

(** The mapping as it is filed: a mapping without rank is given one more than
    the largest rank of the table ([rbegin]), or 1 in an empty table. *)
Definition stamp (mapping : Mapping) (table : list (Z * Mapping)) : Mapping :=
  if mapping_rank mapping =? 0 then
    match last table with
    | Some (last_rank, _) => set_rank (Int64.add last_rank 1) mapping
    | None => set_rank 1 mapping
    end
  else mapping.

(** The body of the loop over the mappings of a path that was taken;
    [mappings[name]] of an absent name is the empty table. *)
Definition file_mapping (name : string) (mapping : Mapping)
    (mappings : gmap string (list (Z * Mapping))) : gmap string (list (Z * Mapping)) :=
  let table := default [] (mappings !! name) in
  let mapping := stamp mapping table in
  <[name := rank_assign (mapping_rank mapping) mapping table]> mappings.

Definition file_path (mappings : gmap string (list (Z * Mapping))) (path : Path)
  : gmap string (list (Z * Mapping)) :=
  foldl (fun acc mapping => file_mapping (path_name path) mapping acc)
        mappings (path_mapping path).

(** The Path rebuilt from a table: its mappings in the order of the table. *)
Definition rebuild (name : string) (table : list (Z * Mapping)) : Path :=
  {| path_name := name; path_mapping := snd <$> table |}.

(** The state [to_xg] works on: the table [mappings], the caller's
    [removed_paths], and the chunks handed to the index builder's callback,
    in the order they were shipped. *)
Record Splitter := {
  mappings : gmap string (list (Z * Mapping));
  removed_paths : gmap string Path;
  shipped : list Graph
}.

Section PathSplitter.

(** [regex_match(name, paths_to_take)]. *)
Variable paths_to_take : string -> bool.

(** What [std::move] leaves behind in a Mapping it was moved out of: the
    same mapping where the message is copied, a blank one where its
    content is swapped away. *)
Variable moved_from : Mapping -> Mapping.

Definition handle_graph (st : Splitter) (graph : Graph) : Splitter :=
  let '(paths_taken, paths_kept) :=
    List.partition (fun p => paths_to_take (path_name p)) (graph_path graph) in
  let graph := {| graph_node := graph_node graph;
                  graph_edge := graph_edge graph;
                  graph_path := paths_kept |} in
  {| mappings := foldl file_path (mappings st) paths_taken;
     removed_paths := removed_paths st;
     shipped := shipped st ++ [graph] |}.

(** The loop that follows the chunks of a file: every table is rebuilt as
    a Path and stored under its name, its mappings being moved out. *)
Definition reconstitute (st : Splitter) : Splitter :=
  {| mappings :=
       (fun table : list (Z * Mapping) => prod_map id moved_from <$> table)
         <$> mappings st;
     removed_paths :=
       map_fold (fun name table acc => <[name := rebuild name table]> acc)
                (removed_paths st) (mappings st);
     shipped := shipped st |}.

Fixpoint to_xg_from (filenames : list string) (files : gmap string (list Graph))
    (st : Splitter) : Splitter * option string :=
  match filenames with
  | [] => (st, None)
  | name :: rest =>
      match files !! name with
      | None => (st, Some ("failed to open " +:+ name))
      | Some chunks =>
          to_xg_from rest files (reconstitute (foldl handle_graph st chunks))
      end
  end.

Definition to_xg (filenames : list string) (files : gmap string (list Graph))
    (removed : gmap string Path) : Splitter * option string :=
  to_xg_from filenames files
    {| mappings := ∅; removed_paths := removed; shipped := [] |}.

End PathSplitter.

(** *** What the path splitter is to achieve *)

(** [mappings[name]], the empty table where the name is absent. *)
Definition table_of (mappings : gmap string (list (Z * Mapping))) (name : string)
  : list (Z * Mapping) :=
  default [] (mappings !! name).

(** The mappings a chunk gives up, under the name of their path, in the
    order in which they are filed. *)
Definition taken_mappings (paths_to_take : string -> bool) (graph : Graph)
  : list (string * Mapping) :=
  p ← List.filter (fun p => paths_to_take (path_name p)) (graph_path graph);
  (fun m => (path_name p, m)) <$> path_mapping p.

(** The chunk without the paths that match. *)
Definition kept (paths_to_take : string -> bool) (graph : Graph) : Graph :=
  {| graph_node := graph_node graph;
     graph_edge := graph_edge graph;
     graph_path := List.filter (fun p => negb (paths_to_take (path_name p)))
                               (graph_path graph) |}.

(** The chunks of the files of a list, in the order of the traversal. *)
Definition chunks_of (files : gmap string (list Graph)) (filenames : list string)
  : list Graph :=
  name ← filenames; default [] (files !! name).

(** The mappings that arrive in the course of a traversal, in order. *)
Definition arrivals_of (paths_to_take : string -> bool)
    (files : gmap string (list Graph)) (filenames : list string)
  : list (string * Mapping) :=
  chunk ← chunks_of files filenames; taken_mappings paths_to_take chunk.

Definition file_all (arrivals : list (string * Mapping))
    (mappings : gmap string (list (Z * Mapping))) : gmap string (list (Z * Mapping)) :=
  foldl (fun acc a => file_mapping a.1 a.2 acc) mappings arrivals.

(** The arrivals as they are filed: each with the rank it is filed under. *)
Fixpoint filed (arrivals : list (string * Mapping))
    (mappings : gmap string (list (Z * Mapping))) : list (string * Mapping) :=
  match arrivals with
  | [] => []
  | (name, m) :: rest =>
      (name, stamp m (table_of mappings name)) :: filed rest (file_mapping name m mappings)
  end.

(** The last mapping of a list filed under a name and a rank. *)
Fixpoint last_filed (name : string) (rank : Z) (l : list (string * Mapping))
  : option Mapping :=
  match l with
  | [] => None
  | (n, m) :: rest =>
      match last_filed name rank rest with
      | Some m' => Some m'
      | None => if decide (n = name /\ mapping_rank m = rank) then Some m else None
      end
  end.

(** A table as [to_xg] keeps it: the ranks strictly ascending, every mapping
    under the rank it bears. *)
Definition table_ok (table : list (Z * Mapping)) : Prop :=
  StronglySorted Z.lt (fst <$> table) /\
  Forall (fun e => mapping_rank e.2 = e.1) table.

(** A mapping is found in a Path, whatever rank it was given there. *)
Definition covered (m : Mapping) (record : Path) : Prop :=
  exists m', m' ∈ path_mapping record /\ m' = set_rank (mapping_rank m') m.

(** The outcome of [to_xg] as a reader would expect it: the traversal ends,
    and every mapping of a matching path is found in the Path handed back
    under its name, whose mappings are in ascending order of rank. *)
Definition reassembles_all (paths_to_take : string -> bool)
    (moved_from : Mapping -> Mapping) (filenames : list string)
    (files : gmap string (list Graph)) (removed : gmap string Path) : Prop :=
  exists st,
    to_xg paths_to_take moved_from filenames files removed = (st, None) /\
    forall N m,
      (N, m) ∈ arrivals_of paths_to_take files filenames ->
      exists record,
        removed_paths st !! N = Some record /\
        path_name record = N /\
        StronglySorted Z.lt (mapping_rank <$> path_mapping record) /\
        covered m record.

(** A chunk of one path, for the examples. *)
Definition single_path (name : string) (mappings : list Mapping) : Graph :=
  {| graph_node := []; graph_edge := [];
     graph_path := [{| path_name := name; path_mapping := mappings |}] |}.

(** A mapping on a node, with a rank, and the pattern that matches one
    name, for the examples. *)
Definition mapping_on (node rank : Z) : Mapping :=
  {| mapping_node_id := node; mapping_offset := 0; mapping_rank := rank |}.

Definition only (name : string) (n : string) : bool := String.eqb n name.

(** The overload without a pattern: "nothing matches the default-constructed
    regex", and the map handed over is a local one. *)
Definition to_xg_all (moved_from : Mapping -> Mapping) (filenames : list string)
    (files : gmap string (list Graph)) : Splitter * option string :=
  to_xg (fun _ => false) moved_from filenames files ∅.

(** ** KmerPipeline *)

Record KmerMatch := {
  kmer_sequence : string;
  kmer_node_id : Z;
  kmer_position : Z;
  kmer_backward : bool
}.

(** One call of the enumeration's callback: the worker that makes it
    ([omp_get_thread_num]), the k-mer, the node it starts on and its
    orientation, and the offset. *)
Record KmerOccurrence := {
  occ_tid : nat;
  occ_kmer : string;
  occ_node_id : Z;
  occ_backward : bool;
  occ_p : Z
}.

Definition canonical_symbol (c : ascii) : bool :=
  (Ascii.eqb c "A" || Ascii.eqb c "T" || Ascii.eqb c "G" || Ascii.eqb c "C")%bool.

(** Modelled from the spec: [allATGC] is declared in a header that is not
    part of the sources at hand; it holds of the k-mers "composed entirely of
    the four canonical symbols". *)
Definition allATGC (s : string) : bool :=
  forallb canonical_symbol (list_ascii_of_string s).

(** The key-value index, as far as this file drives it: the batches written
    to the database, in the order of the writes, and the k-mer size it was
    told to remember. *)
Record Index := {
  index_db : list (list (string * Z * Z));
  index_kmer_size : option Z
}.

Definition buffer_max_size : Z := 100000.

Definition batch_kmer (k : KmerMatch) : string * Z * Z :=
  (kmer_sequence k, kmer_node_id k, kmer_position k).

(** One [WriteBatch] filled from the buffer and written at once. *)
Definition write_buffer (buf : list KmerMatch) (index : Index) : Index :=
  {| index_db := index_db index ++ [batch_kmer <$> buf];
     index_kmer_size := index_kmer_size index |}.

Record Indexer := { buffer : list (list KmerMatch); indexer_index : Index }.

(** The KmerMatch filled in for an occurrence. *)
Definition kmer_match (o : KmerOccurrence) : KmerMatch :=
  {| kmer_sequence := occ_kmer o; kmer_node_id := occ_node_id o;
     kmer_position := occ_p o; kmer_backward := occ_backward o |}.

(** [buffer[tid]] is only defined below the number of workers, which is
    where [omp_get_thread_num] stays; beyond it the state is left alone. *)
Definition cache_kmer (st : Indexer) (o : KmerOccurrence) : Indexer :=
  if allATGC (occ_kmer o) then
    let tid := occ_tid o in
    match buffer st !! tid with
    | Some buf =>
        let k := kmer_match o in
        let buf := buf ++ [k] in
        if buffer_max_size <? Z.of_nat (length buf)
        then {| buffer := <[tid := []]> (buffer st);
                indexer_index := write_buffer buf (indexer_index st) |}
        else {| buffer := <[tid := buf]> (buffer st);
                indexer_index := indexer_index st |}
    | None => st
    end
  else st.

(** The loop that ends the work on a graph: every buffer is written once
    more, then the vector of buffers is dropped. *)
Definition flush_buffers (st : Indexer) : Indexer :=
  {| buffer := [];
     indexer_index := foldl (fun index buf => write_buffer buf index)
                            (indexer_index st) (buffer st) |}.

(** An occurrence of the k-mer "ACG" met by worker 0, for the examples. *)
Definition occurrence_ACG : KmerOccurrence :=
  {| occ_tid := 0%nat; occ_kmer := "ACG"; occ_node_id := 1;
     occ_backward := false; occ_p := 0 |}.

Section KmerPipeline.

(** [omp_get_num_threads()]. *)
Variable thread_count : nat.

(** [VG::for_each_kmer_parallel], declared in vg.hpp: the calls it makes
    of its callback, in the order in which the workers make them. *)
Variable VG_for_each_kmer_parallel :
  VG -> Z -> bool -> Z -> Z -> bool -> list KmerOccurrence.

Definition index_kmers_lambda (kmer_size : Z) (path_only : bool) (edge_max stride : Z)
    (allow_negatives : bool) (index : Index) (g : VG) : Index * VG :=
  let st := {| buffer := replicate thread_count []; indexer_index := index |} in
  let st := foldl cache_kmer st
              (VG_for_each_kmer_parallel g kmer_size path_only edge_max stride
                                         allow_negatives) in
  (indexer_index (flush_buffers st), g).

Definition index_kmers (kmer_size : Z) (path_only : bool) (edge_max stride : Z)
    (allow_negatives : bool) (filenames : list string) (index : Index) (w : World)
  : Run Index :=
  let r := for_each (index_kmers_lambda kmer_size path_only edge_max stride
                                        allow_negatives) filenames index w in
  match thrown r with
  | None =>
      {| world := world r;
         captured := {| index_db := index_db (captured r);
                        index_kmer_size := Some kmer_size |};
         thrown := None |}
  | Some _ => r
  end.

End KmerPipeline.

(** ** KmerPositionExporter *)

(** Modelled from the spec: the struct [KmerPosition] is declared in vg.hpp,
    which is not part of the sources at hand.  It is a k-mer occurrence
    with its "predecessor characters", "successor characters" and "reachable
    next positions"; the fields are the ones [write_kmer] reads, the three
    collections in the order in which they are iterated. *)
Record KmerPosition := {
  kp_kmer : string;
  kp_pos : string;
  kp_prev_chars : list ascii;
  kp_next_chars : list ascii;
  kp_next_positions : list string
}.

Definition TAB : ascii := "009"%char.
Definition NEWLINE : ascii := "010"%char.

(** [std::stringstream], as far as [write_kmer] uses it: the characters
    held, the put position, and the fail bit, under which nothing is written
    any more. *)
Record stringstream := { ss_chars : list ascii; ss_put : nat; ss_fail : bool }.

Definition ss_new : stringstream :=
  {| ss_chars := []; ss_put := 0%nat; ss_fail := false |}.

(** Characters go in at the put position, over the ones that are there. *)
Definition ss_write (s : list ascii) (line : stringstream) : stringstream :=
  if ss_fail line then line
  else {| ss_chars := take (ss_put line) (ss_chars line) ++ s
                      ++ drop (ss_put line + length s)%nat (ss_chars line);
          ss_put := (ss_put line + length s)%nat;
          ss_fail := false |}.

Definition put_char (c : ascii) (line : stringstream) : stringstream :=
  ss_write [c] line.

Definition put_string (s : string) (line : stringstream) : stringstream :=
  ss_write (list_ascii_of_string s) line.

Definition put_int64 (z : Z) (line : stringstream) : stringstream :=
  put_string (pretty z) line.

(** [line.seekp(off, line.cur)]: a position outside of the characters held
    sets the fail bit. *)
Definition seekp_cur (off : Z) (line : stringstream) : stringstream :=
  if ss_fail line then line
  else
    let target := Z.of_nat (ss_put line) + off in
    if ((0 <=? target) && (target <=? Z.of_nat (length (ss_chars line))))%bool
    then {| ss_chars := ss_chars line; ss_put := Z.to_nat target; ss_fail := false |}
    else {| ss_chars := ss_chars line; ss_put := ss_put line; ss_fail := true |}.

Definition ss_str (line : stringstream) : string :=
  string_of_list_ascii (ss_chars line).

Definition pop_back (s : string) : string :=
  string_of_list_ascii (removelast (list_ascii_of_string s)).

(** The record [write_kmer] hands to the output stream, [start_id] being
    the value the captured reference holds at that time. *)
Definition write_kmer (start_id : Z) (kp : KmerPosition) : string :=
  let line := ss_new in
  let line := put_char TAB (put_string (kp_pos kp) (put_char TAB (put_string (kp_kmer kp) line))) in
  let line := foldl (fun line c => put_char "," (put_char c line)) line (kp_prev_chars kp) in
  let line := match kp_prev_chars kp with
              | _ :: _ => seekp_cur (-1) line
              | [] => put_char "$" line
              end in
  let line := put_char TAB line in
  let line := foldl (fun line c => put_char "," (put_char c line)) line (kp_next_chars kp) in
  let line := match kp_next_chars kp with
              | _ :: _ => seekp_cur (-1) line
              | [] => put_char "#" line
              end in
  let line := put_char TAB line in
  let line := foldl (fun line p => put_char "," (put_string p line)) line
                    (kp_next_positions kp) in
  let rec := ss_str line in
  match kp_next_positions kp with
  | [] => ss_str (put_string ":0" (put_int64 start_id line))
  | _ :: _ => pop_back rec
  end.

(** The output streams of the process, by identity; [cout] is one of them.
    A stream holds what was written to it so far. *)
Definition ostream : Type := nat.
Definition cout : ostream := 0%nat.

Definition written (o : ostream) (streams : gmap nat string) : string :=
  default "" (streams !! o).

(** [o << s << endl]. *)
Definition write_line (o : ostream) (s : string) (streams : gmap nat string)
  : gmap nat string :=
  <[o := written o streams +:+ s +:+ String NEWLINE ""]> streams.

(** What the two exports capture by reference: the ids of the start and end
    node, and the streams they write to. *)
Record Export := { head_id : Z; tail_id : Z; streams : gmap nat string }.

Section KmerPositionExporter.

(** [VG::for_each_gcsa_kmer_position_parallel], declared in vg.hpp: the
    ids of the start and end node it settles on ("the start_end_id
    actually used", written through the two references before the first
    position is handed out), and the positions it hands to its callback,
    in the order in which the workers enter the critical section. *)
Variable VG_for_each_gcsa_kmer_position_parallel :
  VG -> Z -> bool -> Z -> Z -> bool -> Z -> Z -> Z * Z * list KmerPosition.

(** [kmer_t] and its [operator<<], declared in kmer.hpp. *)
Variable kmer_t : Type.
Variable show_kmer : kmer_t -> string.

(** [VG::add_start_end_markers] (the graph with its markers, and the two
    ids written through the references) and [for_each_kmer] of kmer.hpp
    (the k-mers it hands to its callback, in order). *)
Variable VG_add_start_end_markers : VG -> Z -> Z -> Z -> VG * Z * Z.
Variable for_each_kmer : VG -> Z -> Z -> Z -> list kmer_t.

Definition gcsa_out_old_lambda (kmer_size : Z) (path_only forward_only : bool)
    (e : Export) (g : VG) : Export * VG :=
  let '(start_id, end_id, positions) :=
    VG_for_each_gcsa_kmer_position_parallel
      g kmer_size path_only 0 1 forward_only (head_id e) (tail_id e) in
  ({| head_id := start_id; tail_id := end_id;
      streams := foldl (fun streams kp => write_line cout (write_kmer start_id kp) streams)
                       (streams e) positions |},
   g).

Definition write_gcsa_out_old (out : ostream) (kmer_size : Z)
    (path_only forward_only : bool) (start_id end_id : Z)
    (filenames : list string) (streams : gmap nat string) (w : World) : Run Export :=
  for_each (gcsa_out_old_lambda kmer_size path_only forward_only) filenames
           {| head_id := start_id; tail_id := end_id; streams := streams |} w.

Definition gcsa_out_handle_lambda (kmer_size : Z) (e : Export) (g : VG) : Export * VG :=
  let '(g, head, tail) := VG_add_start_end_markers g kmer_size (head_id e) (tail_id e) in
  ({| head_id := head; tail_id := tail;
      streams := foldl (fun streams kp => write_line cout (show_kmer kp) streams)
                       (streams e) (for_each_kmer g kmer_size head tail) |},
   g).

Definition write_gcsa_out_handle (out : ostream) (kmer_size : Z)
    (path_only forward_only : bool) (head tail : Z)
    (filenames : list string) (streams : gmap nat string) (w : World) : Run Export :=
  for_each (gcsa_out_handle_lambda kmer_size) filenames
           {| head_id := head; tail_id := tail; streams := streams |} w.

End KmerPositionExporter.

(** A stream that holds the characters [l] and writes at their end. *)
Definition ended (l : list ascii) : stringstream :=
  {| ss_chars := l; ss_put := length l; ss_fail := false |}.

(** The characters of a run of items, each followed by a comma. *)
Definition with_commas (items : list string) : list ascii :=
  item ← items; list_ascii_of_string item ++ [","%char].

(** A stream is left as it was. *)
Definition untouched (o : ostream) (before after : gmap nat string) : Prop :=
  after !! o = before !! o.

(** The text a run of records makes: each on a line of its own. *)
Definition lines (records : list string) : string :=
  foldr (fun record rest => record +:+ String NEWLINE "" +:+ rest) "" records.

(** A k-mer position at the end of a sequence, and an enumeration that
    hands out this one position, for the examples. *)
Definition position_AC : KmerPosition :=
  {| kp_kmer := "AC"; kp_pos := "1:0"; kp_prev_chars := [];
     kp_next_chars := ["A"%char; "C"%char]; kp_next_positions := [] |}.

Definition one_position (g : VG) (kmer_size : Z) (path_only : bool)
    (edge_max stride : Z) (forward_only : bool) (head tail : Z)
  : Z * Z * list KmerPosition :=
  (head, tail, [position_AC]).

(** *** The text format, as the specification words it *)

Fixpoint comma_joined (items : list string) : string :=
  match items with
  | [] => ""
  | [x] => x
  | x :: rest => x +:+ "," +:+ comma_joined rest
  end.

Definition char_column (none : string) (chars : list ascii) : string :=
  match chars with
  | [] => none
  | _ => comma_joined ((fun c => String c "") <$> chars)
  end.

Definition next_column (sentinel : Z) (positions : list string) : string :=
  match positions with
  | [] => pretty sentinel +:+ ":0"
  | _ => comma_joined positions
  end.

(** Five columns with a TAB between them. *)
Definition text_record (sentinel : Z) (kp : KmerPosition) : string :=
  kp_kmer kp +:+ String TAB "" +:+
  kp_pos kp +:+ String TAB "" +:+
  char_column "$" (kp_prev_chars kp) +:+ String TAB "" +:+
  char_column "#" (kp_next_chars kp) +:+ String TAB "" +:+
  next_column sentinel (kp_next_positions kp).

(** ** More of the set: what a traversal reads, and the binary exports *)

(** What is found under a name by a traversal that does not write: the
    named files are the ones of the world it started in; standard input
    gives its graph once, and nothing after that. *)
Definition read_at (w : World) (stdin_read : bool) (name : string) : option Graph :=
  if decide (name = "-")
  then Some (if stdin_read then empty_graph else cin w)
  else disk w !! name.

(** The graphs a read-only traversal hands to its action, named after
    their files, up to the first file that cannot be opened, and the
    failure thrown there. *)
Fixpoint graphs_read (w : World) (stdin_read : bool) (filenames : list string)
  : list VG * option string :=
  match filenames with
  | [] => ([], None)
  | name :: rest =>
      match read_at w stdin_read name with
      | None => ([], Some ("failed to open " +:+ name))
      | Some g =>
          let '(gs, what) :=
            graphs_read w (stdin_read || bool_decide (name = "-")) rest in
          ({| vg_name := name; vg_graph := g |} :: gs, what)
      end
  end.


Section BinaryExports.

(** [kmer_t] and its [operator<<], [VG::add_start_end_markers] and
    [for_each_kmer], as for the text export. *)
Variable kmer_t : Type.
Variable show_kmer : kmer_t -> string.
Variable VG_add_start_end_markers : VG -> Z -> Z -> Z -> VG * Z * Z.
Variable for_each_kmer : VG -> Z -> Z -> Z -> list kmer_t.

(** [VG::write_gcsa_kmers_to_tmpfile], declared in vg.hpp: the name of the
    temporary file it wrote, which is none of the files of the set, and the
    two ids as it leaves them. *)
Variable VG_write_gcsa_kmers_to_tmpfile :
  VG -> Z -> bool -> bool -> Z -> Z -> string * Z * Z.



Definition gcsa_kmers_binary_handle_lambda (out : ostream) (kmer_size : Z)
    (e : Export) (g : VG) : Export * VG :=
  let '(g, head, tail) := VG_add_start_end_markers g kmer_size (head_id e) (tail_id e) in
  ({| head_id := head; tail_id := tail;
      streams := foldl (fun streams kp => write_line out (show_kmer kp) streams)
                       (streams e) (for_each_kmer g kmer_size head tail) |},
   g).

Definition write_gcsa_kmers_binary_handle (out : ostream) (kmer_size : Z)
    (path_only forward_only : bool) (head tail : Z)
    (filenames : list string) (streams : gmap nat string) (w : World) : Run Export :=
  for_each (gcsa_kmers_binary_handle_lambda out kmer_size) filenames
           {| head_id := head; tail_id := tail; streams := streams |} w.

End BinaryExports.

(** The number of TABs of a text. *)
Definition count_tabs (s : string) : nat :=
  length (List.filter (Ascii.eqb TAB) (list_ascii_of_string s)).

(** The occurrences the indexer keeps, as the matches it makes of them. *)
Definition canonical_matches (occurrences : list KmerOccurrence) : list KmerMatch :=
  kmer_match <$> List.filter (fun o => allATGC (occ_kmer o)) occurrences.

(** * Properties *)

(** ** Signed 64-bit arithmetic *)

Lemma Int64_wrap_in_range z : Int64.in_range z -> Int64.wrap z = z.
Proof.
  unfold Int64.in_range, Int64.wrap, Int64.min_signed, Int64.max_signed.
  intros Hz. rewrite Z.mod_small; lia.
Qed.

Lemma Int64_add_exact x y : Int64.in_range (x + y) -> Int64.add x y = x + y.
Proof. apply Int64_wrap_in_range. Qed.

(** ** SetIterator *)

Section SetIteratorFacts.

Context {S : Type}.
Variable lambda : S -> VG -> S * VG.

(** A traversal of a list of files in two parts: the second part starts
    where the first one stopped, unless the first one threw. *)
Lemma transform_app l1 l2 s w :
  transform lambda (l1 ++ l2) s w =
  let r := transform lambda l1 s w in
  match thrown r with
  | None => transform lambda l2 (captured r) (world r)
  | Some _ => r
  end.
Proof.
  revert s w. induction l1 as [|name l1 IH]; intros s w; simpl; [done|].
  destruct (load name w) as [[g w1]|]; simpl; [|done].
  destruct (lambda s (set_name name g)) as [s' g']. apply IH.
Qed.

Lemma for_each_app l1 l2 s w :
  for_each lambda (l1 ++ l2) s w =
  let r := for_each lambda l1 s w in
  match thrown r with
  | None => for_each lambda l2 (captured r) (world r)
  | Some _ => r
  end.
Proof.
  revert s w. induction l1 as [|name l1 IH]; intros s w; simpl; [done|].
  destruct (load name w) as [[g w1]|]; simpl; [|done].
  destruct (lambda s (set_name name g)) as [s' g']. apply IH.
Qed.

(** A named file that is not there is not brought about by a traversal. *)
Lemma transform_absent l s w name :
  name <> "-" -> disk w !! name = None ->
  disk (world (transform lambda l s w)) !! name = None.
Proof.
  intros Hname. revert s w. induction l as [|n l IH]; intros s w Habs; simpl; [done|].
  unfold load. destruct (decide (n = "-")) as [->|Hn].
  - destruct (lambda s _) as [s' g']. apply IH. simpl.
    by rewrite lookup_insert_ne.
  - destruct (disk w !! n) as [c|] eqn:Hc; simpl; [|done].
    destruct (lambda s _) as [s' g']. apply IH. simpl.
    rewrite lookup_insert_ne; [done|]. intros ->. congruence.
Qed.

Lemma for_each_disk l s w : disk (world (for_each lambda l s w)) = disk w.
Proof.
  revert s w. induction l as [|n l IH]; intros s w; simpl; [done|].
  unfold load. destruct (decide (n = "-")) as [->|Hn].
  - destruct (lambda s _) as [s' g']. by rewrite IH.
  - destruct (disk w !! n) as [c|] eqn:Hc; simpl; [|done].
    destruct (lambda s _) as [s' g']. by rewrite IH.
Qed.

Lemma load_absent name w :
  name <> "-" -> disk w !! name = None -> load name w = None.
Proof. intros Hn Habs. unfold load. rewrite decide_False by done. by rewrite Habs. Qed.

Lemma transform_open_failure pre bad post s w :
  bad <> "-" -> disk w !! bad = None ->
  thrown (transform lambda pre s w) = None ->
  transform lambda (pre ++ bad :: post) s w =
  {| world := world (transform lambda pre s w);
     captured := captured (transform lambda pre s w);
     thrown := Some ("failed to open " +:+ bad) |}.
Proof.
  intros Hbad Habs Hpre. rewrite transform_app. simpl. rewrite Hpre.
  simpl. rewrite load_absent; [done..|]. by apply transform_absent.
Qed.

Lemma for_each_open_failure pre bad post s w :
  bad <> "-" -> disk w !! bad = None ->
  thrown (for_each lambda pre s w) = None ->
  for_each lambda (pre ++ bad :: post) s w =
  {| world := world (for_each lambda pre s w);
     captured := captured (for_each lambda pre s w);
     thrown := Some ("failed to open " +:+ bad) |}.
Proof.
  intros Hbad Habs Hpre. rewrite for_each_app. simpl. rewrite Hpre.
  simpl. rewrite load_absent; [done..|]. by rewrite for_each_disk.
Qed.

End SetIteratorFacts.

Section PathSplitterFailure.

Variable paths_to_take : string -> bool.
Variable moved_from : Mapping -> Mapping.

Lemma to_xg_from_app l1 l2 files st :
  to_xg_from paths_to_take moved_from (l1 ++ l2) files st =
  let r := to_xg_from paths_to_take moved_from l1 files st in
  match snd r with
  | None => to_xg_from paths_to_take moved_from l2 files (fst r)
  | Some _ => r
  end.
Proof.
  revert st. induction l1 as [|name l1 IH]; intros st; simpl; [done|].
  destruct (files !! name) as [chunks|]; simpl; [|done]. apply IH.
Qed.

Lemma to_xg_from_open_failure pre bad post files st :
  files !! bad = None ->
  snd (to_xg_from paths_to_take moved_from pre files st) = None ->
  to_xg_from paths_to_take moved_from (pre ++ bad :: post) files st =
  (fst (to_xg_from paths_to_take moved_from pre files st),
   Some ("failed to open " +:+ bad)).
Proof.
  intros Habs Hpre. rewrite to_xg_from_app. simpl. rewrite Hpre.
  simpl. by rewrite Habs.
Qed.

End PathSplitterFailure.

(** C5.  When a named file of the list cannot be opened, each of the
    traversals ([transform], [for_each], the loop of [to_xg]), whatever the
    action it is given, throws a failure whose message is "failed to open "
    followed by the name of that file.  What is left behind is exactly what
    the files before it left behind: their rewrites stay, the files after it
    are not touched, and the file is not tried again.  So do
    [merge_id_space], built on the first, and [index_kmers], built on the
    second, which then does not get to record the k-mer size. *)
Theorem open_failure_aborts :
  (forall (S : Type) (lambda : S -> VG -> S * VG) pre bad post s w,
      bad <> "-" -> disk w !! bad = None ->
      thrown (transform lambda pre s w) = None ->
      transform lambda (pre ++ bad :: post) s w =
      {| world := world (transform lambda pre s w);
         captured := captured (transform lambda pre s w);
         thrown := Some ("failed to open " +:+ bad) |}) /\
  (forall (S : Type) (lambda : S -> VG -> S * VG) pre bad post s w,
      bad <> "-" -> disk w !! bad = None ->
      thrown (for_each lambda pre s w) = None ->
      for_each lambda (pre ++ bad :: post) s w =
      {| world := world (for_each lambda pre s w);
         captured := captured (for_each lambda pre s w);
         thrown := Some ("failed to open " +:+ bad) |}) /\
  (forall paths_to_take moved_from pre bad post files st,
      files !! bad = None ->
      snd (to_xg_from paths_to_take moved_from pre files st) = None ->
      to_xg_from paths_to_take moved_from (pre ++ bad :: post) files st =
      (fst (to_xg_from paths_to_take moved_from pre files st),
       Some ("failed to open " +:+ bad))) /\
  (forall pre bad post w max_node_id w',
      bad <> "-" -> disk w !! bad = None ->
      merge_id_space pre w = (w', Returned max_node_id) ->
      merge_id_space (pre ++ bad :: post) w =
      (w', Thrown ("failed to open " +:+ bad))) /\
  (forall thread_count enumerate kmer_size path_only edge_max stride allow_negatives
          pre bad post index w,
      bad <> "-" -> disk w !! bad = None ->
      thrown (index_kmers thread_count enumerate kmer_size path_only edge_max stride
                          allow_negatives pre index w) = None ->
      let action := index_kmers_lambda thread_count enumerate kmer_size path_only
                                       edge_max stride allow_negatives in
      index_kmers thread_count enumerate kmer_size path_only edge_max stride
                  allow_negatives (pre ++ bad :: post) index w =
      {| world := world (for_each action pre index w);
         captured := captured (for_each action pre index w);
         thrown := Some ("failed to open " +:+ bad) |}).
Proof.
  split; [|split; [|split; [|split]]].
  - intros. by apply transform_open_failure.
  - intros. by apply for_each_open_failure.
  - intros. by apply to_xg_from_open_failure.
  - intros pre bad post w m w' Hbad Habs. unfold merge_id_space.
    destruct (thrown (transform merge_lambda pre 0 w)) eqn:Hthrown; [done|].
    intros [= <- <-]. by rewrite transform_open_failure.
  - intros thread_count enumerate kmer_size path_only edge_max stride allow_negatives
           pre bad post index w Hbad Habs Hpre action.
    unfold index_kmers in *. fold action in Hpre |- *.
    destruct (thrown (for_each action pre index w)) eqn:Hthrown.
    { simpl in Hpre. congruence. }
    by rewrite for_each_open_failure.
Qed.

(** *** A traversal of distinct files, read as a fold over their graphs *)

Lemma Forall2_impl_elem {A B} (P Q : A -> B -> Prop) (l : list A) (k : list B) :
  Forall2 P l k -> (forall x y, x ∈ l -> P x y -> Q x y) -> Forall2 Q l k.
Proof.
  induction 1 as [|x y l k Hxy Hlk IH]; intros Himpl; constructor.
  - apply Himpl; [left|done].
  - apply IH. intros x' y' Hx'. apply Himpl. by right.
Qed.

Lemma content_after_step name n g' w w1 (g : VG) :
  n <> name -> load name w = Some (g, w1) ->
  content (serialize_to name g' w1) n = content w n.
Proof.
  intros Hn. unfold load, content, serialize_to.
  destruct (decide (name = "-")) as [->|Hname].
  - intros [= _ <-]. simpl. rewrite !decide_False by done.
    by rewrite lookup_insert_ne.
  - destruct (disk w !! name); [|done]. intros [= _ <-]. simpl.
    destruct (decide (n = "-")); [done|]. by rewrite lookup_insert_ne.
Qed.

Lemma load_content name w g :
  content w name = Some g ->
  exists w1, load name w = Some ({| vg_name := ""; vg_graph := g |}, w1).
Proof.
  unfold content, load. destruct (decide (name = "-")).
  - intros [= <-]. eauto.
  - intros ->. eauto.
Qed.

Section Threading.

Context {S : Type}.
Variable lambda : S -> VG -> S * VG.

Lemma transform_thread filenames gs s w :
  NoDup filenames ->
  Forall2 (fun name g => content w name = Some g) filenames gs ->
  let r := transform lambda filenames s w in
  thrown r = None /\
  captured r = fst (thread lambda s filenames gs) /\
  Forall2 (fun name g => disk (world r) !! name = Some g)
          filenames (snd (thread lambda s filenames gs)) /\
  (forall n, n ∉ filenames -> disk (world r) !! n = disk w !! n).
Proof.
  intros Hnodup Hcontent. revert s w Hnodup Hcontent.
  revert gs. induction filenames as [|name names IH]; intros gs s w Hnodup Hcontent.
  { inversion Hcontent; subst. simpl. split; [done|]. split; [done|]. split; [constructor|done]. }
  inversion Hcontent as [|? g ? gs' Hg Hrest]; subst.
  apply NoDup_cons in Hnodup as [Hfresh Hnodup].
  destruct (load_content _ _ _ Hg) as [w1 Hload].
  simpl. rewrite Hload. unfold set_name. simpl.
  destruct (lambda s _) as [s' g'] eqn:Hstep.
  specialize (IH gs' s' (serialize_to name g' w1) Hnodup).
  destruct IH as (Hthrown & Hcaptured & Hfiles & Hframe).
  { eapply Forall2_impl_elem; [exact Hrest|]. intros n g0 Hn Hc. simpl in Hc.
    erewrite content_after_step; [done| |done]. intros ->. done. }
  destruct (thread lambda s' names gs') as [s'' out] eqn:Hthread. simpl in *.
  split; [done|]. split; [done|]. split.
  - constructor; [|done]. rewrite Hframe by done. simpl.
    by rewrite lookup_insert_eq.
  - intros n Hn. apply not_elem_of_cons in Hn as [Hne Hn].
    rewrite Hframe by done. simpl. rewrite lookup_insert_ne by done.
    unfold load in Hload. destruct (decide (name = "-")).
    + by injection Hload as _ <-.
    + destruct (disk w !! name); [|done]. by injection Hload as _ <-.
Qed.

End Threading.

(** ** IdentifierSpaceMerger *)

Lemma highest_id_nonneg g : 0 <= highest_id g.
Proof. unfold highest_id. induction (node_ids g); simpl; lia. Qed.

Lemma highest_id_bound g x : x ∈ node_ids g -> x <= highest_id g.
Proof.
  unfold highest_id. induction (node_ids g) as [|y l IH]; simpl.
  - intros Hx. by apply elem_of_nil in Hx.
  - intros [->|Hx]%elem_of_cons; [lia|]. specialize (IH Hx). lia.
Qed.

Lemma node_ids_shift_graph k g :
  node_ids (shift_graph k g) = (fun x => Int64.add x k) <$> node_ids g.
Proof.
  unfold node_ids, shift_graph. simpl. rewrite <- !list_fmap_compose. done.
Qed.

(** Without overflow, shifting adds the increment to every identifier. *)
Lemma node_ids_shift_exact k g :
  0 <= k -> positive_ids g -> k + highest_id g <= Int64.max_signed ->
  node_ids (shift_graph k g) = (fun x => x + k) <$> node_ids g.
Proof.
  intros Hk Hpos Hmax. rewrite node_ids_shift_graph.
  apply list_fmap_ext. intros i x Hx.
  apply Int64_add_exact. unfold Int64.in_range, Int64.min_signed.
  assert (x ∈ node_ids g) as Hin by (by eapply list_elem_of_lookup_2).
  pose proof (highest_id_bound _ _ Hin).
  unfold positive_ids in Hpos. rewrite Forall_forall in Hpos.
  specialize (Hpos _ Hin). lia.
Qed.

Lemma highest_id_shifted (k : Z) (l : list Z) :
  0 <= k -> foldr Z.max 0 ((fun x => x + k) <$> l) <= foldr Z.max 0 l + k.
Proof. intros Hk. induction l as [|x l IH]; csimpl; lia. Qed.

Lemma merge_lambda_step m name g :
  merge_lambda m {| vg_name := name; vg_graph := g |} =
  (highest_id (merge_step m g), {| vg_name := name; vg_graph := merge_step m g |}).
Proof.
  unfold merge_lambda, merge_step, VG_max_node_id, VG_increment_node_ids.
  by destruct (0 <? m).
Qed.

Lemma thread_merge_cons m name names g gs :
  thread merge_lambda m (name :: names) (g :: gs) =
  (fst (thread merge_lambda (highest_id (merge_step m g)) names gs),
   merge_step m g :: snd (thread merge_lambda (highest_id (merge_step m g)) names gs)).
Proof.
  cbn [thread]. rewrite merge_lambda_step.
  by destruct (thread merge_lambda _ names gs).
Qed.

Lemma thread_merge_result names gs m :
  length names = length gs ->
  fst (thread merge_lambda m names gs) =
  default m (highest_id <$> last (snd (thread merge_lambda m names gs))).
Proof.
  revert gs m. induction names as [|name names IH]; intros [|g gs] m Hlen;
    try done.
  rewrite thread_merge_cons. simpl fst. simpl snd.
  injection Hlen as Hlen. rewrite (IH gs _ Hlen).
  generalize (snd (thread merge_lambda (highest_id (merge_step m g)) names gs)).
  intros [|y l]; [done|]. rewrite last_cons_cons.
  destruct (last (y :: l)) eqn:Hlast; [done|]. by apply last_None in Hlast.
Qed.

Lemma thread_merge_lookup names gs m i g :
  length names = length gs ->
  gs !! i = Some g ->
  let out := snd (thread merge_lambda m names gs) in
  out !! i = Some (merge_step (match i with O => m | S _ => running_maximum out i end) g).
Proof.
  revert gs m i. induction names as [|name names IH]; intros [|g0 gs] m i Hlen Hi;
    try done.
  rewrite thread_merge_cons. simpl snd. injection Hlen as Hlen.
  destruct i as [|i]; simpl in Hi.
  - by injection Hi as ->.
  - intros out. subst out. simpl lookup.
    rewrite (IH gs _ i Hlen Hi). f_equal. f_equal.
    destruct i as [|i]; simpl; [|done].
    destruct names as [|n names], gs as [|g1 gs]; try done.
Qed.

Lemma thread_length {S : Type} (lambda : S -> VG -> S * VG) s names gs :
  length names = length gs ->
  length (snd (thread lambda s names gs)) = length gs.
Proof.
  revert s gs. induction names as [|name names IH]; intros s [|g gs] Hlen; try done.
  injection Hlen as Hlen. simpl.
  destruct (lambda s _) as [s' g']. specialize (IH s' gs Hlen).
  destruct (thread lambda s' names gs). simpl in *. by rewrite IH.
Qed.

(** The files after [merge_id_space] over distinct files that are all there:
    each holds the graph it held, moved by the running maximum it met. *)
Lemma merge_id_space_files filenames gs w :
  NoDup filenames ->
  Forall2 (fun name g => content w name = Some g) filenames gs ->
  exists w' gs',
    merge_id_space filenames w = (w', Returned (default 0 (highest_id <$> last gs'))) /\
    Forall2 (fun name g => disk w' !! name = Some g) filenames gs' /\
    gs' = snd (thread merge_lambda 0 filenames gs) /\
    (forall i g, gs !! i = Some g ->
                 gs' !! i = Some (merge_step (running_maximum gs' i) g)).
Proof.
  intros Hnodup Hcontent.
  destruct (transform_thread merge_lambda filenames gs 0 w Hnodup Hcontent)
    as (Hthrown & Hcaptured & Hfiles & _).
  pose proof (Forall2_length _ _ _ Hcontent) as Hlen.
  exists (world (transform merge_lambda filenames 0 w)),
         (snd (thread merge_lambda 0 filenames gs)).
  split; [|split; [done|split; [done|]]].
  - unfold merge_id_space. rewrite Hthrown, Hcaptured.
    by rewrite thread_merge_result.
  - intros i g Hi. rewrite (thread_merge_lookup _ _ 0 i g Hlen Hi).
    by destruct i.
Qed.

(** C8.  [merge_id_space] shifts a graph only under a running maximum that
    is strictly positive.  On the empty list it leaves the files alone and
    returns 0.  The action leaves its graph as it is under a maximum that is
    not positive, and shifts it by the maximum otherwise.  Over distinct
    files: the first file is written back as it was read; a file that
    follows one written back with a highest identifier that is not positive
    is written back as it was read, whatever came before; a file that
    follows one with a positive highest identifier is shifted by it. *)
Theorem merge_id_space_shifts_above_zero_only :
  (forall w, merge_id_space [] w = (w, Returned 0)) /\
  (forall m g, m <= 0 -> merge_lambda m g = (VG_max_node_id g, g)) /\
  (forall m g, 0 < m ->
     merge_lambda m g =
     (VG_max_node_id (VG_increment_node_ids g m), VG_increment_node_ids g m)) /\
  (forall filenames gs w,
     NoDup filenames ->
     Forall2 (fun name g => content w name = Some g) filenames gs ->
     exists w' gs',
       merge_id_space filenames w = (w', Returned (default 0 (highest_id <$> last gs'))) /\
       Forall2 (fun name g => disk w' !! name = Some g) filenames gs' /\
       gs' !! 0%nat = gs !! 0%nat /\
       (forall i g', gs' !! i = Some g' -> highest_id g' <= 0 ->
                     gs' !! S i = gs !! S i) /\
       (forall i g' g, gs' !! i = Some g' -> 0 < highest_id g' ->
                       gs !! S i = Some g ->
                       gs' !! S i = Some (shift_graph (highest_id g') g))).
Proof.
  split; [done|]. split; [|split].
  - intros m g Hm. unfold merge_lambda.
    by replace (0 <? m) with false by lia.
  - intros m g Hm. unfold merge_lambda.
    by replace (0 <? m) with true by lia.
  - intros filenames gs w Hnodup Hcontent.
    destruct (merge_id_space_files filenames gs w Hnodup Hcontent)
      as (w' & gs' & Hrun & Hfiles & Hgs' & Hstep).
    assert (length gs' = length gs) as Hlen.
    { rewrite Hgs'. apply thread_length. by eapply Forall2_length. }
    exists w', gs'. split; [done|]. split; [done|]. split; [|split].
    + destruct (gs !! 0%nat) as [g|] eqn:Hg.
      * by rewrite (Hstep _ _ Hg).
      * apply lookup_ge_None. apply lookup_ge_None in Hg. lia.
    + intros i g' Hg' Hmax. destruct (gs !! S i) as [g|] eqn:Hg.
      * rewrite (Hstep _ _ Hg). simpl. rewrite Hg'. simpl.
        unfold merge_step. by replace (0 <? highest_id g') with false by lia.
      * apply lookup_ge_None. apply lookup_ge_None in Hg. lia.
    + intros i g' g Hg' Hmax Hg.
      rewrite (Hstep _ _ Hg). simpl. rewrite Hg'. simpl.
      unfold merge_step. by replace (0 <? highest_id g') with true by lia.
Qed.

(** One step on a graph with positive identifiers, without overflow: the
    identifiers written back are above the running maximum, and the new
    maximum is at most the old one plus the graph's own. *)
Lemma merge_step_above m g y :
  0 <= m -> positive_ids g -> m + highest_id g <= Int64.max_signed ->
  y ∈ node_ids (merge_step m g) -> m < y.
Proof.
  intros Hm Hpos Hmax. unfold merge_step.
  unfold positive_ids in Hpos. rewrite Forall_forall in Hpos.
  destruct (0 <? m) eqn:Hguard.
  - rewrite node_ids_shift_exact; [|done|by apply Forall_forall|done].
    intros (x & -> & Hx)%list_elem_of_fmap. specialize (Hpos _ Hx). lia.
  - intros Hy. specialize (Hpos _ Hy). lia.
Qed.

Lemma merge_step_highest m g :
  0 <= m -> positive_ids g -> m + highest_id g <= Int64.max_signed ->
  highest_id (merge_step m g) <= m + highest_id g.
Proof.
  intros Hm Hpos Hmax. unfold merge_step. destruct (0 <? m).
  - unfold highest_id at 1. rewrite node_ids_shift_exact by done.
    pose proof (highest_id_shifted m (node_ids g) Hm). unfold highest_id. lia.
  - lia.
Qed.

Lemma thread_merge_increasing names gs m :
  length names = length gs ->
  Forall positive_ids gs ->
  0 <= m ->
  m + sum_Z (highest_id <$> gs) <= Int64.max_signed ->
  let out := snd (thread merge_lambda m names gs) in
  (forall g y, out !! 0%nat = Some g -> y ∈ node_ids g -> m < y) /\
  ranges_increasing out.
Proof.
  revert gs m. induction names as [|name names IH]; intros [|g gs] m Hlen Hpos Hm Hsum;
    try done.
  rewrite thread_merge_cons. simpl snd. injection Hlen as Hlen.
  apply Forall_cons in Hpos as [Hg Hpos]. csimpl in Hsum.
  assert (0 <= sum_Z (highest_id <$> gs)) as Hrest.
  { clear. induction gs as [|g gs IH]; csimpl; [done|].
    pose proof (highest_id_nonneg g). lia. }
  pose proof (highest_id_nonneg g) as Hg0.
  pose proof (merge_step_highest m g Hm Hg ltac:(lia)) as Hnew.
  pose proof (highest_id_nonneg (merge_step m g)) as Hnew0.
  destruct (IH gs (highest_id (merge_step m g)) Hlen Hpos Hnew0 ltac:(lia))
    as [Hfirst Hinc].
  split.
  - intros g' y [= <-] Hy. eapply merge_step_above; [done|done|lia|done].
  - intros [|i] g1 g2 x y Hg1 Hg2 Hx Hy; simpl in Hg1, Hg2.
    + injection Hg1 as <-. pose proof (highest_id_bound _ _ Hx).
      specialize (Hfirst _ _ Hg2 Hy). lia.
    + exact (Hinc i g1 g2 x y Hg1 Hg2 Hx Hy).
Qed.

(** C1, as amended.  After [merge_id_space] has run over a list of
    files that is not empty, names no file twice and finds every file, where
    every node identifier is at least 1 and the highest identifiers of the
    files add up to no more than the largest [int64_t]: the call returns,
    every file holds its graph shifted by the running maximum it met (as it
    was, for the first), every identifier of a file is below every
    identifier of the file that follows it in the list, and the value
    returned is the highest identifier of the last file. *)
Theorem merge_id_space_ranges filenames gs w :
  filenames <> [] ->
  NoDup filenames ->
  Forall2 (fun name g => content w name = Some g) filenames gs ->
  Forall positive_ids gs ->
  sum_Z (highest_id <$> gs) <= Int64.max_signed ->
  merged filenames gs w.
Proof.
  intros Hne Hnodup Hcontent Hpos Hsum.
  destruct (merge_id_space_files filenames gs w Hnodup Hcontent)
    as (w' & gs' & Hrun & Hfiles & Hgs' & Hstep).
  pose proof (Forall2_length _ _ _ Hcontent) as Hlen.
  destruct (thread_merge_increasing filenames gs 0 Hlen Hpos ltac:(done) ltac:(lia))
    as [_ Hinc].
  exists w', gs', (default 0 (highest_id <$> last gs')).
  split; [done|]. split; [done|]. split; [done|]. split; [by rewrite Hgs'|].
  destruct (last gs') as [g|] eqn:Hlast; [done|].
  apply last_None in Hlast. rewrite Hlast in Hfiles.
  apply Forall2_nil_inv_r in Hfiles. done.
Qed.

(** C1, as stated, fails where a file holds a node with identifier
    0: after the file "a" with the node 2, the node 0 of the file "b" is
    shifted to 2, and both files hold a node 2. *)
Lemma merge_id_space_ranges_overlap :
  ~ merged ["a"; "b"] [single_node 2; single_node 0]
      {| disk := <["a" := single_node 2]> (<["b" := single_node 0]> ∅);
         cin := empty_graph |}.
Proof.
  intros (w' & gs & m & Hrun & Hfiles & _ & Hinc & _).
  unfold merge_id_space in Hrun. injection Hrun as <- _.
  apply Forall2_cons_inv_l in Hfiles as (ga & gs1 & Ha & Hfiles & ->).
  apply Forall2_cons_inv_l in Hfiles as (gb & gs2 & Hb & Hfiles & ->).
  vm_compute in Ha. vm_compute in Hb.
  injection Ha as <-. injection Hb as <-.
  specialize (Hinc 0%nat _ _ 2 2 eq_refl eq_refl).
  assert (2 < 2); [|lia]. apply Hinc; apply list_elem_of_singleton; reflexivity.
Qed.

(** ** PathSplitter *)

(** *** The table of ranks *)

Lemma rank_lookup_assign_eq r m t : rank_lookup r (rank_assign r m t) = Some m.
Proof.
  induction t as [|[r0 m0] t IH]; simpl.
  - by rewrite Z.eqb_refl.
  - destruct (r <? r0) eqn:Hlt; simpl; [by rewrite Z.eqb_refl|].
    destruct (r =? r0) eqn:Heq; simpl; [by rewrite Z.eqb_refl|].
    by rewrite Heq.
Qed.

Lemma rank_lookup_assign_ne r r' m t :
  r' <> r -> rank_lookup r' (rank_assign r m t) = rank_lookup r' t.
Proof.
  intros Hne. induction t as [|[r0 m0] t IH]; simpl.
  - by replace (r' =? r) with false by lia.
  - destruct (r <? r0) eqn:Hlt; simpl.
    { by replace (r' =? r) with false by lia. }
    destruct (r =? r0) eqn:Heq; simpl.
    { replace (r' =? r) with false by lia. by replace (r' =? r0) with false by lia. }
    by rewrite IH.
Qed.

Lemma rank_assign_elem r m t e :
  e ∈ rank_assign r m t -> e = (r, m) \/ e ∈ t.
Proof.
  induction t as [|[r0 m0] t IH]; simpl.
  - intros ->%list_elem_of_singleton. by left.
  - destruct (r <? r0); [|destruct (r =? r0)].
    + intros [->|He]%elem_of_cons; [by left|by right].
    + intros [->|He]%elem_of_cons; [by left|]. right. by right.
    + intros [->|He]%elem_of_cons; [right; by left|].
      destruct (IH He) as [->|Ht]; [by left|]. right. by right.
Qed.

Lemma rank_assign_new r m t : (r, m) ∈ rank_assign r m t.
Proof.
  induction t as [|[r0 m0] t IH]; simpl; [by left|].
  destruct (r <? r0); [by left|]. destruct (r =? r0); [by left|]. by right.
Qed.

Lemma rank_assign_sorted r m t :
  StronglySorted Z.lt (fst <$> t) -> StronglySorted Z.lt (fst <$> rank_assign r m t).
Proof.
  induction t as [|[r0 m0] t IH]; simpl; intros Hsorted.
  - repeat constructor.
  - apply StronglySorted_inv in Hsorted as [Hrest Hall].
    destruct (r <? r0) eqn:Hlt; [|destruct (r =? r0) eqn:Heq]; csimpl.
    + constructor; [by constructor|]. constructor; [lia|].
      eapply Forall_impl; [exact Hall|]. simpl. lia.
    + replace r with r0 by lia. by constructor.
    + constructor; [by apply IH|].
      apply Forall_forall. intros k (e & -> & He)%list_elem_of_fmap.
      destruct (rank_assign_elem _ _ _ _ He) as [->|Ht]; simpl; [lia|].
      rewrite Forall_forall in Hall. apply Hall. apply list_elem_of_fmap. eauto.
Qed.

Lemma rank_assign_ok r m t :
  mapping_rank m = r -> table_ok t -> table_ok (rank_assign r m t).
Proof.
  intros Hrank [Hsorted Hranks]. split; [by apply rank_assign_sorted|].
  apply Forall_forall. intros e He.
  destruct (rank_assign_elem _ _ _ _ He) as [->|Ht]; [done|].
  rewrite Forall_forall in Hranks. by apply Hranks.
Qed.

(** In a table with ascending ranks, a rank holds one mapping: the entries
    are what the lookups find. *)
Lemma elem_of_rank_lookup (t : list (Z * Mapping)) r m :
  StronglySorted Z.lt (fst <$> t) ->
  (r, m) ∈ t <-> rank_lookup r t = Some m.
Proof.
  induction t as [|[r0 m0] t IH]; simpl; intros Hsorted.
  - split; [by intros ?%elem_of_nil|done].
  - apply StronglySorted_inv in Hsorted as [Hrest Hall].
    rewrite Forall_forall in Hall.
    destruct (r =? r0) eqn:Heq.
    + assert (r = r0) as -> by lia. split.
      * intros [[= ->]|Hin]%elem_of_cons; [done|].
        assert (r0 < r0); [|lia]. apply Hall.
        apply list_elem_of_fmap. by exists (r0, m).
      * intros [= ->]. by left.
    + rewrite <- (IH Hrest). split.
      * intros [[= -> ->]|Hin]%elem_of_cons; [lia|done].
      * intros Hin. by right.
Qed.


(** The last entry of a table with ascending ranks bears its largest rank. *)
Lemma last_rank_largest (t : list (Z * Mapping)) k m0 e :
  StronglySorted Z.lt (fst <$> t) -> last t = Some (k, m0) -> e ∈ t -> e.1 <= k.
Proof.
  intros Hsorted Hlast He. revert e He.
  induction t as [|[r1 m1] t IH]; [done|]. intros e He.
  rewrite fmap_cons in Hsorted.
  apply StronglySorted_inv in Hsorted as [Hrest Hall].
  destruct t as [|e2 t].
  - injection Hlast as <- <-. apply list_elem_of_singleton in He as ->. done.
  - rewrite last_cons_cons in Hlast.
    apply elem_of_cons in He as [->|He]; [|by apply IH].
    rewrite Forall_forall in Hall. change (r1 <= k).
    assert (r1 < k); [|lia]. apply Hall.
    apply list_elem_of_fmap. exists (k, m0). split; [done|].
    by apply last_Some_elem_of.
Qed.

(** A rank above all the ranks of a table is entered at its end. *)
Lemma rank_assign_above r m t :
  (forall e, e ∈ t -> e.1 < r) -> rank_assign r m t = t ++ [(r, m)].
Proof.
  induction t as [|[r0 m0] t IH]; simpl; intros Habove; [done|].
  assert (r0 < r) as Hr0 by (apply (Habove (r0, m0)); by left).
  replace (r <? r0) with false by lia. replace (r =? r0) with false by lia.
  rewrite IH; [done|]. intros e He. apply Habove. by right.
Qed.

(** *** Filing the mappings that arrive *)

Lemma table_of_file_mapping name m tbl :
  table_of (file_mapping name m tbl) name =
  rank_assign (mapping_rank (stamp m (table_of tbl name)))
              (stamp m (table_of tbl name)) (table_of tbl name).
Proof. unfold table_of, file_mapping. by rewrite lookup_insert_eq. Qed.

Lemma lookup_file_mapping_ne name n m tbl :
  n <> name -> file_mapping name m tbl !! n = tbl !! n.
Proof. intros Hn. unfold file_mapping. by rewrite lookup_insert_ne. Qed.

Lemma table_of_file_mapping_ne name n m tbl :
  n <> name -> table_of (file_mapping name m tbl) n = table_of tbl n.
Proof. intros Hn. unfold table_of. by rewrite lookup_file_mapping_ne. Qed.

Lemma file_all_app arr1 arr2 tbl :
  file_all (arr1 ++ arr2) tbl = file_all arr2 (file_all arr1 tbl).
Proof. unfold file_all. by rewrite foldl_app. Qed.

Lemma filed_app arr1 arr2 tbl :
  filed (arr1 ++ arr2) tbl = filed arr1 tbl ++ filed arr2 (file_all arr1 tbl).
Proof.
  revert tbl. induction arr1 as [|[n m] arr1 IH]; intros tbl; simpl; [done|].
  by rewrite IH.
Qed.

(** Names under which nothing arrives keep their entry of the table. *)
Lemma lookup_file_all_other N arr tbl :
  (forall m, (N, m) ∉ arr) -> file_all arr tbl !! N = tbl !! N.
Proof.
  revert tbl. induction arr as [|[n m] arr IH]; intros tbl Hnone; simpl; [done|].
  rewrite IH.
  - apply lookup_file_mapping_ne. intros ->. apply (Hnone m). by left.
  - intros m' Hm'. apply (Hnone m'). by right.
Qed.

(** Names under which something arrives, or that had an entry, have one. *)
Lemma lookup_file_all_is_Some N arr tbl :
  is_Some (tbl !! N) \/ (exists m, (N, m) ∈ arr) -> is_Some (file_all arr tbl !! N).
Proof.
  revert tbl. induction arr as [|[n m] arr IH]; intros tbl; simpl.
  - intros [?|[m Hm]]; [done|]. by apply elem_of_nil in Hm.
  - intros Hcase. apply IH.
    destruct (decide (n = N)) as [->|Hn].
    + left. unfold file_mapping. rewrite lookup_insert_eq. eauto.
    + rewrite lookup_file_mapping_ne by done.
      destruct Hcase as [?|[m' Hm']]; [by left|]. right. exists m'.
      apply elem_of_cons in Hm' as [[= -> ->]|?]; done.
Qed.

Lemma lookup_file_all_None N arr tbl :
  file_all arr tbl !! N = None -> tbl !! N = None /\ forall m, (N, m) ∉ arr.
Proof.
  intros Hnone. split.
  - destruct (tbl !! N) eqn:Htbl; [|done].
    destruct (lookup_file_all_is_Some N arr tbl) as [t Ht]; [left; by eauto|].
    congruence.
  - intros m Hm.
    destruct (lookup_file_all_is_Some N arr tbl) as [t Ht]; [right; by eauto|].
    congruence.
Qed.

(** The entry of a rank after a run of arrivals: the last mapping filed
    under the rank, or what the table held when nothing was. *)
Lemma rank_lookup_file_all N r arr tbl :
  rank_lookup r (table_of (file_all arr tbl) N) =
  match last_filed N r (filed arr tbl) with
  | Some m => Some m
  | None => rank_lookup r (table_of tbl N)
  end.
Proof.
  revert tbl. induction arr as [|[n m] arr IH]; intros tbl; simpl; [done|].
  rewrite IH. destruct (last_filed N r _) as [m'|]; [done|].
  destruct (decide (n = N /\ _)) as [[-> Hr]|Hne].
  - rewrite table_of_file_mapping, Hr. apply rank_lookup_assign_eq.
  - destruct (decide (n = N)) as [->|Hn].
    + rewrite table_of_file_mapping. apply rank_lookup_assign_ne.
      intros Hr. apply Hne. done.
    + by rewrite table_of_file_mapping_ne.
Qed.

Lemma last_filed_app N r l1 l2 :
  last_filed N r (l1 ++ l2) =
  match last_filed N r l2 with
  | Some m => Some m
  | None => last_filed N r l1
  end.
Proof.
  induction l1 as [|[n m] l1 IH]; simpl.
  - by destruct (last_filed N r l2).
  - rewrite IH. by destruct (last_filed N r l2).
Qed.

Lemma last_filed_None N r l :
  last_filed N r l = None <-> forall m, (N, m) ∈ l -> mapping_rank m <> r.
Proof.
  induction l as [|[n m] l IH]; simpl.
  - split; [|done]. intros _ m Hm. by apply elem_of_nil in Hm.
  - destruct (last_filed N r l) as [m'|] eqn:Hlast.
    + split; [done|]. intros Hall.
      assert (Some m' = None); [|done].
      apply IH. intros m0 Hm0. apply Hall. by right.
    + destruct (decide (n = N /\ mapping_rank m = r)) as [[-> Hr]|Hne].
      * split; [done|]. intros Hall. exfalso. apply (Hall m); [by left|done].
      * split; [|done]. intros _ m0 [[= <- <-]|Hm0]%elem_of_cons.
        -- intros Hr. by apply Hne.
        -- by apply IH.
Qed.

(** [last_filed] in words: the mapping was filed under the name and the
    rank, and nothing was filed under them after it. *)
Lemma last_filed_Some N r l m :
  last_filed N r l = Some m <->
  mapping_rank m = r /\
  exists before after,
    l = before ++ (N, m) :: after /\
    forall m', (N, m') ∈ after -> mapping_rank m' <> r.
Proof.
  split.
  - induction l as [|[n m0] l IH]; simpl; [done|].
    destruct (last_filed N r l) as [m'|] eqn:Hlast.
    + intros [= ->]. destruct (IH eq_refl) as (Hr & before & after & -> & Hafter).
      split; [done|]. by exists ((n, m0) :: before), after.
    + destruct (decide (n = N /\ mapping_rank m0 = r)) as [[-> Hr]|Hne]; [|done].
      intros [= ->]. split; [done|]. exists [], l. split; [done|].
      by apply last_filed_None.
  - intros (Hr & before & after & -> & Hafter).
    rewrite last_filed_app. simpl.
    apply last_filed_None in Hafter. rewrite Hafter.
    by rewrite decide_True.
Qed.

(** *** The tables stay in order *)

Lemma table_of_file_mapping_sorted name m tbl N :
  (forall N, StronglySorted Z.lt (fst <$> table_of tbl N)) ->
  StronglySorted Z.lt (fst <$> table_of (file_mapping name m tbl) N).
Proof.
  intros Hsorted. destruct (decide (N = name)) as [->|Hn].
  - rewrite table_of_file_mapping. by apply rank_assign_sorted.
  - by rewrite table_of_file_mapping_ne.
Qed.

Lemma table_of_file_mapping_ok name m tbl N :
  (forall N, table_ok (table_of tbl N)) ->
  table_ok (table_of (file_mapping name m tbl) N).
Proof.
  intros Hok. destruct (decide (N = name)) as [->|Hn].
  - rewrite table_of_file_mapping. by apply rank_assign_ok.
  - by rewrite table_of_file_mapping_ne.
Qed.

Lemma file_all_sorted arr tbl :
  (forall N, StronglySorted Z.lt (fst <$> table_of tbl N)) ->
  forall N, StronglySorted Z.lt (fst <$> table_of (file_all arr tbl) N).
Proof.
  revert tbl. induction arr as [|[n m] arr IH]; intros tbl Hsorted; simpl; [done|].
  apply IH. intros N. by apply table_of_file_mapping_sorted.
Qed.

Lemma file_all_ok arr tbl :
  (forall N, table_ok (table_of tbl N)) ->
  forall N, table_ok (table_of (file_all arr tbl) N).
Proof.
  revert tbl. induction arr as [|[n m] arr IH]; intros tbl Hok; simpl; [done|].
  apply IH. intros N. by apply table_of_file_mapping_ok.
Qed.

Lemma table_ok_empty N : table_ok (table_of ∅ N).
Proof. unfold table_of. rewrite lookup_empty. split; constructor. Qed.

(** The mappings of a rebuilt Path, for a table in order: they are the
    entries of the table, and their ranks ascend. *)
Lemma rebuild_ranks name t :
  table_ok t ->
  StronglySorted Z.lt (mapping_rank <$> path_mapping (rebuild name t)).
Proof.
  intros [Hsorted Hranks]. simpl. rewrite <- list_fmap_compose.
  erewrite list_fmap_ext; [exact Hsorted|].
  intros i e He. rewrite Forall_forall in Hranks. simpl.
  apply Hranks. by eapply list_elem_of_lookup_2.
Qed.

Lemma rebuild_elem name t m :
  table_ok t ->
  m ∈ path_mapping (rebuild name t) <-> rank_lookup (mapping_rank m) t = Some m.
Proof.
  intros [Hsorted Hranks]. simpl. rewrite <- (elem_of_rank_lookup _ _ _ Hsorted).
  rewrite list_elem_of_fmap. split.
  - intros ([r m'] & -> & He). rewrite Forall_forall in Hranks.
    by rewrite (Hranks _ He).
  - intros He. by exists (mapping_rank m, m).
Qed.

(** *** The traversal of [to_xg], read as a fold over the arrivals *)

Lemma foldl_file_path paths tbl :
  foldl file_path tbl paths =
  file_all (p ← paths; (fun m => (path_name p, m)) <$> path_mapping p) tbl.
Proof.
  revert tbl. induction paths as [|p paths IH]; intros tbl; [done|].
  simpl foldl. rewrite IH. rewrite bind_cons, file_all_app. f_equal.
  unfold file_path, file_all. generalize (path_mapping p). clear.
  intros l. revert tbl. induction l as [|m l IH]; intros tbl; [done|].
  simpl. by rewrite IH.
Qed.

Lemma reconstitute_removed moved_from st N :
  removed_paths (reconstitute moved_from st) !! N =
  match mappings st !! N with
  | Some t => Some (rebuild N t)
  | None => removed_paths st !! N
  end.
Proof.
  unfold reconstitute. simpl.
  apply (map_fold_weak_ind
           (fun (acc : gmap string Path) (tbl : gmap string (list (Z * Mapping))) =>
              acc !! N = match tbl !! N with
                         | Some t => Some (rebuild N t)
                         | None => removed_paths st !! N
                         end)).
  - by rewrite lookup_empty.
  - intros name t tbl acc Hfresh IH.
    destruct (decide (name = N)) as [->|Hn].
    + by rewrite !lookup_insert_eq.
    + by rewrite !lookup_insert_ne.
Qed.

Lemma reconstitute_mappings moved_from st N :
  mappings (reconstitute moved_from st) !! N =
  (fun t : list (Z * Mapping) => prod_map id moved_from <$> t) <$> mappings st !! N.
Proof. unfold reconstitute. simpl. by rewrite lookup_fmap. Qed.

Lemma reconstitute_copy moved_from st :
  (forall m, moved_from m = m) ->
  mappings (reconstitute moved_from st) = mappings st.
Proof.
  intros Hcopy. apply map_eq. intros N. rewrite reconstitute_mappings.
  destruct (mappings st !! N) as [t|]; [|done]. simpl. f_equal.
  induction t as [|[r m] t IH]; [done|]. csimpl. rewrite IH.
  unfold prod_map. simpl. by rewrite Hcopy.
Qed.

(** Moving the mappings out leaves the ranks of a table as they are. *)
Lemma reconstitute_sorted moved_from st :
  (forall N, StronglySorted Z.lt (fst <$> table_of (mappings st) N)) ->
  forall N, StronglySorted Z.lt
              (fst <$> table_of (mappings (reconstitute moved_from st)) N).
Proof.
  intros Hsorted N. specialize (Hsorted N). unfold table_of in *.
  rewrite reconstitute_mappings. destruct (mappings st !! N) as [t|]; [|done].
  simpl in *. rewrite <- list_fmap_compose.
  erewrite list_fmap_ext; [exact Hsorted|]. by intros i [r m] _.
Qed.

Section PathSplitterFacts.

Variable paths_to_take : string -> bool.
Variable moved_from : Mapping -> Mapping.

Lemma handle_graph_eq st graph :
  handle_graph paths_to_take st graph =
  {| mappings := file_all (taken_mappings paths_to_take graph) (mappings st);
     removed_paths := removed_paths st;
     shipped := shipped st ++ [kept paths_to_take graph] |}.
Proof.
  unfold handle_graph. rewrite partition_as_filter.
  by rewrite foldl_file_path.
Qed.

(** The arrivals of a run of chunks. *)
Lemma foldl_handle_graph st chunks :
  foldl (handle_graph paths_to_take) st chunks =
  {| mappings := file_all (chunk ← chunks; taken_mappings paths_to_take chunk)
                          (mappings st);
     removed_paths := removed_paths st;
     shipped := shipped st ++ (kept paths_to_take <$> chunks) |}.
Proof.
  revert st. induction chunks as [|chunk chunks IH]; intros st; simpl.
  - rewrite app_nil_r. by destruct st.
  - rewrite IH, handle_graph_eq. simpl.
    by rewrite file_all_app, <- app_assoc.
Qed.


Lemma to_xg_from_present name rest files st chunks :
  files !! name = Some chunks ->
  to_xg_from paths_to_take moved_from (name :: rest) files st =
  to_xg_from paths_to_take moved_from rest files
    (reconstitute moved_from (foldl (handle_graph paths_to_take) st chunks)).
Proof. intros Hfile. simpl. by rewrite Hfile. Qed.

Lemma chunks_of_cons files name rest chunks :
  files !! name = Some chunks ->
  chunks_of files (name :: rest) = chunks ++ chunks_of files rest.
Proof. intros Hfile. unfold chunks_of. rewrite bind_cons. by rewrite Hfile. Qed.

Lemma arrivals_of_cons files name rest chunks :
  files !! name = Some chunks ->
  arrivals_of paths_to_take files (name :: rest) =
  (chunk ← chunks; taken_mappings paths_to_take chunk)
  ++ arrivals_of paths_to_take files rest.
Proof.
  intros Hfile. unfold arrivals_of.
  by rewrite (chunks_of_cons _ _ _ _ Hfile), bind_app.
Qed.

(** Every chunk of every file is shipped, in order, without the paths
    that match. *)
Lemma to_xg_from_shipped filenames files st :
  (forall name, name ∈ filenames -> is_Some (files !! name)) ->
  snd (to_xg_from paths_to_take moved_from filenames files st) = None /\
  shipped (fst (to_xg_from paths_to_take moved_from filenames files st)) =
  shipped st ++ (kept paths_to_take <$> chunks_of files filenames).
Proof.
  revert st. induction filenames as [|name rest IH]; intros st Hfiles.
  - simpl. by rewrite app_nil_r.
  - destruct (Hfiles name) as [chunks Hfile]; [by left|].
    rewrite (to_xg_from_present _ _ _ _ _ Hfile).
    destruct (IH (reconstitute moved_from
                    (foldl (handle_graph paths_to_take) st chunks)))
      as [Hnone Hshipped].
    { intros n Hn. apply Hfiles. by right. }
    split; [done|].
    rewrite Hshipped, foldl_handle_graph, (chunks_of_cons _ _ _ _ Hfile), fmap_app.
    simpl. by rewrite app_assoc.
Qed.

(** A name that has no table in the end never had one. *)
Lemma to_xg_from_dom filenames files st N :
  mappings (fst (to_xg_from paths_to_take moved_from filenames files st)) !! N = None ->
  mappings st !! N = None.
Proof.
  revert st. induction filenames as [|name rest IH]; intros st; simpl; [done|].
  destruct (files !! name) as [chunks|]; [|done].
  intros Hnone%IH. rewrite reconstitute_mappings, foldl_handle_graph in Hnone.
  simpl in Hnone. apply fmap_None in Hnone.
  by apply lookup_file_all_None in Hnone as [? _].
Qed.

(** And its entry of [removed_paths] is left as it was. *)
Lemma to_xg_from_untouched filenames files st N :
  mappings (fst (to_xg_from paths_to_take moved_from filenames files st)) !! N = None ->
  removed_paths (fst (to_xg_from paths_to_take moved_from filenames files st)) !! N =
  removed_paths st !! N.
Proof.
  revert st. induction filenames as [|name rest IH]; intros st; simpl; [done|].
  destruct (files !! name) as [chunks|]; [|done].
  intros Hnone. rewrite (IH _ Hnone). apply to_xg_from_dom in Hnone.
  rewrite reconstitute_removed. rewrite reconstitute_mappings in Hnone.
  apply fmap_None in Hnone. by rewrite Hnone, foldl_handle_graph.
Qed.

(** Where moving a mapping copies it, the table is the one the arrivals
    of all files make. *)
Lemma to_xg_from_mappings_copy filenames files st :
  (forall m, moved_from m = m) ->
  (forall name, name ∈ filenames -> is_Some (files !! name)) ->
  mappings (fst (to_xg_from paths_to_take moved_from filenames files st)) =
  file_all (arrivals_of paths_to_take files filenames) (mappings st).
Proof.
  intros Hcopy. revert st.
  induction filenames as [|name rest IH]; intros st Hfiles; [done|].
  destruct (Hfiles name) as [chunks Hfile]; [by left|].
  rewrite (to_xg_from_present _ _ _ _ _ Hfile), IH.
  - rewrite reconstitute_copy by done. rewrite foldl_handle_graph. simpl.
    by rewrite (arrivals_of_cons _ _ _ _ Hfile), file_all_app.
  - intros n Hn. apply Hfiles. by right.
Qed.

(** The Paths handed back after a traversal that opened every file, where
    moving a mapping copies it or the list has no more than one file. *)
Lemma to_xg_from_removed filenames files st N :
  (forall m, moved_from m = m) \/ (length filenames <= 1)%nat ->
  (forall name, name ∈ filenames -> is_Some (files !! name)) ->
  filenames <> [] ->
  removed_paths (fst (to_xg_from paths_to_take moved_from filenames files st)) !! N =
  match file_all (arrivals_of paths_to_take files filenames) (mappings st) !! N with
  | Some t => Some (rebuild N t)
  | None => removed_paths st !! N
  end.
Proof.
  intros Hmode Hfiles Hne.
  destruct filenames as [|name names _] using rev_ind; [done|].
  assert (forall n, n ∈ names -> is_Some (files !! n)) as Hnames.
  { intros n Hn. apply Hfiles, elem_of_app. by left. }
  destruct (Hfiles name) as [chunks Hfile].
  { apply elem_of_app. right. by left. }
  rewrite to_xg_from_app.
  destruct (to_xg_from_shipped names files st Hnames) as [Hnone _].
  cbv zeta. rewrite Hnone.
  set (st' := fst (to_xg_from paths_to_take moved_from names files st)).
  rewrite (to_xg_from_present _ _ _ _ _ Hfile). cbn [to_xg_from fst].
  rewrite reconstitute_removed, foldl_handle_graph. cbn [mappings removed_paths].
  assert (arrivals_of paths_to_take files (names ++ [name]) =
          arrivals_of paths_to_take files names
          ++ (chunk ← chunks; taken_mappings paths_to_take chunk)) as ->.
  { unfold arrivals_of, chunks_of. rewrite !bind_app. f_equal.
    rewrite bind_cons, Hfile. simpl. by rewrite !app_nil_r. }
  rewrite file_all_app.
  assert (mappings st' = file_all (arrivals_of paths_to_take files names) (mappings st))
    as Hst'.
  { destruct Hmode as [Hcopy|Hone].
    - by apply to_xg_from_mappings_copy.
    - rewrite length_app in Hone. simpl in Hone.
      destruct names; [done|]. simpl in Hone. lia. }
  rewrite <- Hst'.
  destruct (file_all _ (mappings st') !! N) as [t|] eqn:Htable; [done|].
  apply lookup_file_all_None in Htable as [Hst'N _].
  by apply to_xg_from_untouched.
Qed.

Lemma to_xg_record filenames files removed :
  (forall m, moved_from m = m) \/ (length filenames <= 1)%nat ->
  (forall name, name ∈ filenames -> is_Some (files !! name)) ->
  snd (to_xg paths_to_take moved_from filenames files removed) = None /\
  forall N,
    removed_paths (fst (to_xg paths_to_take moved_from filenames files removed)) !! N =
    match file_all (arrivals_of paths_to_take files filenames) ∅ !! N with
    | Some t => Some (rebuild N t)
    | None => removed !! N
    end.
Proof.
  intros Hmode Hfiles. unfold to_xg. split.
  - by apply to_xg_from_shipped.
  - intros N. destruct (decide (filenames = [])) as [->|Hne].
    + simpl. by rewrite lookup_empty.
    + by rewrite to_xg_from_removed.
Qed.

End PathSplitterFacts.

(** The arrivals as they are filed are the arrivals, one for one: under the
    same name, and the same mapping unless it came without a rank. *)
Lemma filed_elem N m arr tbl :
  (N, m) ∈ filed arr tbl ->
  exists m0, (N, m0) ∈ arr /\ (m = m0 \/ mapping_rank m0 = 0).
Proof.
  revert tbl. induction arr as [|[n m1] arr IH]; intros tbl; simpl.
  - by intros ?%elem_of_nil.
  - intros [[= -> ->]|Hin]%elem_of_cons.
    + exists m1. split; [by left|]. unfold stamp.
      destruct (mapping_rank m1 =? 0) eqn:Hrank; [right; lia|by left].
    + destruct (IH _ Hin) as (m0 & Hm0 & Hcase). exists m0. split; [by right|done].
Qed.

Lemma stamp_ranked m t : mapping_rank m <> 0 -> stamp m t = m.
Proof. intros Hrank. unfold stamp. by replace (mapping_rank m =? 0) with false by lia. Qed.

(** C2, as amended.  After a traversal that opened every file,
    where moving a mapping copies it or the list has no more than one file:
    a name under which no mapping arrived keeps its entry of
    [removed_paths]; a name under which a mapping arrived has one Path there,
    of that name, with its mappings in strictly ascending order of rank; the
    mappings of that Path are the mappings filed under the name after which
    no mapping was filed under the same name and rank.  As the list of files
    is any list, this holds after every file of a longer list. *)
Theorem to_xg_removed_paths paths_to_take moved_from filenames files removed :
  (forall m, moved_from m = m) \/ (length filenames <= 1)%nat ->
  (forall name, name ∈ filenames -> is_Some (files !! name)) ->
  let arrivals := arrivals_of paths_to_take files filenames in
  let r := to_xg paths_to_take moved_from filenames files removed in
  snd r = None /\
  forall N,
    ((forall m, (N, m) ∉ arrivals) -> removed_paths (fst r) !! N = removed !! N) /\
    ((exists m, (N, m) ∈ arrivals) ->
     exists record,
       removed_paths (fst r) !! N = Some record /\
       path_name record = N /\
       StronglySorted Z.lt (mapping_rank <$> path_mapping record) /\
       forall m,
         m ∈ path_mapping record <->
         exists before after,
           filed arrivals ∅ = before ++ (N, m) :: after /\
           forall m', (N, m') ∈ after -> mapping_rank m' <> mapping_rank m).
Proof.
  intros Hmode Hfiles arrivals r.
  destruct (to_xg_record paths_to_take moved_from filenames files removed Hmode Hfiles)
    as [Hnone Hrecord].
  split; [done|]. intros N. subst r. rewrite Hrecord. fold arrivals. split.
  - intros Hnothing. by rewrite lookup_file_all_other, lookup_empty.
  - intros Harrived.
    destruct (lookup_file_all_is_Some N arrivals ∅) as [t Ht]; [by right|].
    rewrite Ht. exists (rebuild N t).
    assert (t = table_of (file_all arrivals ∅) N) as Htable.
    { unfold table_of. by rewrite Ht. }
    assert (table_ok t) as Hok.
    { rewrite Htable. apply file_all_ok. apply table_ok_empty. }
    split; [done|]. split; [done|]. split; [by apply rebuild_ranks|].
    intros m. rewrite (rebuild_elem _ _ _ Hok), Htable, rank_lookup_file_all.
    unfold table_of at 1. rewrite lookup_empty. simpl.
    replace (match last_filed N (mapping_rank m) (filed arrivals ∅) with
             | Some m' => Some m'
             | None => None
             end) with (last_filed N (mapping_rank m) (filed arrivals ∅))
      by (by destruct (last_filed N (mapping_rank m) (filed arrivals ∅))).
    rewrite last_filed_Some. split; [by intros [_ ?]|done].
Qed.

(** C2, as stated, fails where two mappings of a path bear the
    same rank: of the path "P" with a mapping on node 1 and one on node 2,
    both of rank 1, the Path handed back holds the second only. *)
Lemma to_xg_drops_same_rank :
  ~ reassembles_all (fun _ => true) (fun m => m) ["f"]
      {[ "f" := [single_path "P"
                   [ {| mapping_node_id := 1; mapping_offset := 0; mapping_rank := 1 |};
                     {| mapping_node_id := 2; mapping_offset := 0; mapping_rank := 1 |} ]] ]}
      ∅.
Proof.
  intros (st & Hrun & Hall).
  destruct (Hall "P" {| mapping_node_id := 1; mapping_offset := 0; mapping_rank := 1 |})
    as (record & Hrecord & _ & _ & m' & Hm' & Hcovered).
  { vm_compute. left. }
  assert (removed_paths st !! "P" =
          Some {| path_name := "P";
                  path_mapping :=
                    [ {| mapping_node_id := 2; mapping_offset := 0; mapping_rank := 1 |} ] |})
    as Hheld.
  { replace st with
      (fst (to_xg (fun _ => true) (fun m => m) ["f"]
              {[ "f" := [single_path "P"
                   [ {| mapping_node_id := 1; mapping_offset := 0; mapping_rank := 1 |};
                     {| mapping_node_id := 2; mapping_offset := 0; mapping_rank := 1 |} ]] ]}
              ∅)) by (by rewrite Hrun).
    vm_compute. reflexivity. }
  rewrite Hheld in Hrecord. injection Hrecord as <-.
  apply list_elem_of_singleton in Hm'. subst m'. discriminate Hcovered.
Qed.

Lemma taken_mappings_one paths_to_take graph N ms :
  List.filter (fun p => paths_to_take (path_name p)) (graph_path graph) =
    [{| path_name := N; path_mapping := ms |}] ->
  taken_mappings paths_to_take graph = (fun m => (N, m)) <$> ms.
Proof.
  intros Hfilter. unfold taken_mappings. rewrite Hfilter.
  csimpl. by rewrite app_nil_r.
Qed.

Lemma lookup_file_mapping_eq name m tbl :
  file_mapping name m tbl !! name =
  Some (rank_assign (mapping_rank (stamp m (table_of tbl name)))
                    (stamp m (table_of tbl name)) (table_of tbl name)).
Proof. unfold file_mapping, table_of. by rewrite lookup_insert_eq. Qed.

(** The ranks of a table are all that filing looks at, and a move leaves
    them as they are: the ranks of the tables of [to_xg] are those of the
    tables that the arrivals make, whatever a move leaves behind. *)
Lemma stamp_rank_keys m (t1 t2 : list (Z * Mapping)) :
  fst <$> t1 = fst <$> t2 -> mapping_rank (stamp m t1) = mapping_rank (stamp m t2).
Proof.
  intros Hkeys. unfold stamp. destruct (mapping_rank m =? 0); [|done].
  assert (fst <$> last t1 = fst <$> last t2) as Hlast by (by rewrite <- !fmap_last, Hkeys).
  destruct (last t1) as [[k1 x1]|], (last t2) as [[k2 x2]|]; simplify_eq/=; done.
Qed.

Lemma rank_assign_keys r m1 m2 (t1 t2 : list (Z * Mapping)) :
  fst <$> t1 = fst <$> t2 ->
  fst <$> rank_assign r m1 t1 = fst <$> rank_assign r m2 t2.
Proof.
  revert t2. induction t1 as [|[k1 x1] t1 IH]; intros [|[k2 x2] t2] Hkeys; try done.
  rewrite !fmap_cons in Hkeys. injection Hkeys as Hk Hkeys. simpl in Hk. subst k1.
  cbn [rank_assign]. destruct (r <? k2); [by rewrite !fmap_cons, Hkeys|].
  destruct (r =? k2); rewrite !fmap_cons; [by rewrite Hkeys|].
  f_equal. by apply IH.
Qed.

Lemma file_mapping_keys name m tbl1 tbl2 :
  (forall N, fst <$> table_of tbl1 N = fst <$> table_of tbl2 N) ->
  forall N, fst <$> table_of (file_mapping name m tbl1) N =
            fst <$> table_of (file_mapping name m tbl2) N.
Proof.
  intros Hkeys N. destruct (decide (N = name)) as [->|HN].
  - rewrite !table_of_file_mapping.
    rewrite (stamp_rank_keys m _ _ (Hkeys name)). by apply rank_assign_keys.
  - by rewrite !table_of_file_mapping_ne.
Qed.

Lemma file_all_keys arr tbl1 tbl2 :
  (forall N, fst <$> table_of tbl1 N = fst <$> table_of tbl2 N) ->
  forall N, fst <$> table_of (file_all arr tbl1) N = fst <$> table_of (file_all arr tbl2) N.
Proof.
  revert tbl1 tbl2. induction arr as [|[n m] arr IH]; intros tbl1 tbl2 Hkeys; simpl; [done|].
  apply IH. by apply file_mapping_keys.
Qed.

Lemma reconstitute_keys moved_from st N :
  fst <$> table_of (mappings (reconstitute moved_from st)) N =
  fst <$> table_of (mappings st) N.
Proof.
  unfold table_of. rewrite reconstitute_mappings.
  destruct (mappings st !! N) as [t|]; [|done]. simpl.
  rewrite <- list_fmap_compose. apply list_fmap_ext. by intros i [r m] _.
Qed.

Lemma to_xg_from_keys paths_to_take moved_from filenames files st :
  (forall name, name ∈ filenames -> is_Some (files !! name)) ->
  forall N,
    fst <$> table_of
      (mappings (fst (to_xg_from paths_to_take moved_from filenames files st))) N =
    fst <$> table_of (file_all (arrivals_of paths_to_take files filenames) (mappings st)) N.
Proof.
  revert st. induction filenames as [|name rest IH]; intros st Hfiles N; [done|].
  destruct (Hfiles name) as [chunks Hfile]; [by left|].
  rewrite (to_xg_from_present _ _ _ _ _ _ _ Hfile).
  rewrite IH by (intros n Hn; apply Hfiles; by right).
  rewrite (arrivals_of_cons _ _ _ _ _ Hfile), file_all_app.
  apply file_all_keys. intros N'. by rewrite reconstitute_keys, foldl_handle_graph.
Qed.

(** Three mappings without rank that arrive alone under a name. *)
Lemma three_unranked_filed N mA mB mC :
  mapping_rank mA = 0 -> mapping_rank mB = 0 -> mapping_rank mC = 0 ->
  table_of (file_all [(N, mA); (N, mB); (N, mC)] ∅) N =
  [(1, set_rank 1 mA); (2, set_rank 2 mB); (3, set_rank 3 mC)].
Proof.
  intros HrA HrB HrC. unfold file_all. cbn [foldl fst snd].
  rewrite !table_of_file_mapping.
  replace (table_of ∅ N) with (@nil (Z * Mapping))
    by (unfold table_of; by rewrite lookup_empty).
  unfold stamp. rewrite HrA, HrB, HrC. simpl. done.
Qed.

(** C3, as amended.  A mapping that comes without a rank is filed, at the
    time it arrives, under rank 1 in an empty table, and in a table that is
    not empty, whose largest rank is below the largest signed 64-bit
    integer, under that rank plus one, after all the entries that are
    there.  Three such mappings of one path, arriving in the chunks A, B and
    C in this order and alone under their name, are filed under the ranks
    1, 2 and 3, whatever they hold otherwise, in whatever files the chunks
    are and whatever a move leaves behind: these are the ranks of the table
    of their name when the traversal ends.  Where moving a mapping copies
    it or the list has no more than one file, they are handed back with
    these ranks. *)
Theorem unranked_mapping_takes_next_rank :
  (forall name m tbl,
      mapping_rank m = 0 -> table_of tbl name = [] ->
      table_of (file_mapping name m tbl) name = [(1, set_rank 1 m)]) /\
  (forall name m tbl largest,
      mapping_rank m = 0 ->
      StronglySorted Z.lt (fst <$> table_of tbl name) ->
      largest ∈ fst <$> table_of tbl name ->
      (forall rank, rank ∈ fst <$> table_of tbl name -> rank <= largest) ->
      Int64.min_signed <= largest < Int64.max_signed ->
      table_of (file_mapping name m tbl) name =
      table_of tbl name ++ [(largest + 1, set_rank (largest + 1) m)]) /\
  (forall paths_to_take moved_from filenames files removed A B C N mA mB mC,
      (forall m, moved_from m = m) \/ (length filenames <= 1)%nat ->
      (forall name, name ∈ filenames -> is_Some (files !! name)) ->
      chunks_of files filenames = [A; B; C] ->
      List.filter (fun p => paths_to_take (path_name p)) (graph_path A) =
        [{| path_name := N; path_mapping := [mA] |}] ->
      List.filter (fun p => paths_to_take (path_name p)) (graph_path B) =
        [{| path_name := N; path_mapping := [mB] |}] ->
      List.filter (fun p => paths_to_take (path_name p)) (graph_path C) =
        [{| path_name := N; path_mapping := [mC] |}] ->
      mapping_rank mA = 0 -> mapping_rank mB = 0 -> mapping_rank mC = 0 ->
      removed_paths (fst (to_xg paths_to_take moved_from filenames files removed)) !! N =
      Some {| path_name := N;
              path_mapping := [set_rank 1 mA; set_rank 2 mB; set_rank 3 mC] |}) /\
  (forall paths_to_take moved_from filenames files removed A B C N mA mB mC,
      (forall name, name ∈ filenames -> is_Some (files !! name)) ->
      chunks_of files filenames = [A; B; C] ->
      List.filter (fun p => paths_to_take (path_name p)) (graph_path A) =
        [{| path_name := N; path_mapping := [mA] |}] ->
      List.filter (fun p => paths_to_take (path_name p)) (graph_path B) =
        [{| path_name := N; path_mapping := [mB] |}] ->
      List.filter (fun p => paths_to_take (path_name p)) (graph_path C) =
        [{| path_name := N; path_mapping := [mC] |}] ->
      mapping_rank mA = 0 -> mapping_rank mB = 0 -> mapping_rank mC = 0 ->
      filed (arrivals_of paths_to_take files filenames) ∅ =
        [(N, set_rank 1 mA); (N, set_rank 2 mB); (N, set_rank 3 mC)] /\
      fst <$> table_of
        (mappings (fst (to_xg paths_to_take moved_from filenames files removed))) N =
        [1; 2; 3]).
Proof.
  split; [|split; [|split]].
  - intros name m tbl Hrank Hempty. rewrite table_of_file_mapping, Hempty.
    unfold stamp. by rewrite Hrank.
  - intros name m tbl largest Hrank Hsorted Hin Hmax Hrange.
    rewrite table_of_file_mapping.
    destruct (last (table_of tbl name)) as [[k mk]|] eqn:Hlast.
    + assert (k = largest) as ->.
      { apply list_elem_of_fmap in Hin as ([l ml] & -> & Hl).
        pose proof (last_rank_largest _ _ _ _ Hsorted Hlast Hl) as Hle.
        assert (k <= l); [|simpl in *; lia].
        apply Hmax. apply list_elem_of_fmap. exists (k, mk).
        split; [done|]. by apply last_Some_elem_of. }
      unfold stamp. rewrite Hrank, Hlast. simpl.
      rewrite Int64_add_exact.
      2:{ unfold Int64.in_range. unfold Int64.min_signed, Int64.max_signed in *. lia. }
      apply rank_assign_above. intros e He.
      pose proof (last_rank_largest _ _ _ _ Hsorted Hlast He). lia.
    + apply last_None in Hlast. rewrite Hlast in Hin. by apply elem_of_nil in Hin.
  - intros paths_to_take moved_from filenames files removed A B C N mA mB mC
           Hmode Hfiles Hchunks HA HB HC HrA HrB HrC.
    destruct (to_xg_record paths_to_take moved_from filenames files removed Hmode Hfiles)
      as [_ ->].
    unfold arrivals_of. rewrite Hchunks.
    rewrite !bind_cons.
    rewrite (taken_mappings_one _ _ _ _ HA), (taken_mappings_one _ _ _ _ HB),
            (taken_mappings_one _ _ _ _ HC).
    csimpl. unfold file_all. cbn [foldl fst snd].
    rewrite lookup_file_mapping_eq, !table_of_file_mapping.
    replace (table_of ∅ N) with (@nil (Z * Mapping))
      by (unfold table_of; by rewrite lookup_empty).
    unfold stamp. rewrite HrA, HrB, HrC. simpl. done.
  - intros paths_to_take moved_from filenames files removed A B C N mA mB mC
           Hfiles Hchunks HA HB HC HrA HrB HrC.
    assert (arrivals_of paths_to_take files filenames = [(N, mA); (N, mB); (N, mC)])
      as Harrivals.
    { unfold arrivals_of. rewrite Hchunks, !bind_cons.
      rewrite (taken_mappings_one _ _ _ _ HA), (taken_mappings_one _ _ _ _ HB),
              (taken_mappings_one _ _ _ _ HC). done. }
    split.
    + rewrite Harrivals. cbn [filed]. rewrite !table_of_file_mapping.
      replace (table_of ∅ N) with (@nil (Z * Mapping))
        by (unfold table_of; by rewrite lookup_empty).
      unfold stamp. rewrite HrA, HrB, HrC. simpl. done.
    + unfold to_xg. rewrite to_xg_from_keys by done. cbn [mappings].
      by rewrite Harrivals, three_unranked_filed.
Qed.

(** C3, as stated, fails in two places.  In a table whose
    largest rank is the largest signed 64-bit integer, the mapping without
    rank is not filed under that rank plus one.  And where a move leaves a
    blank mapping behind, of three mappings without rank of the path "P"
    that arrive in the files "a", "b" and "c", the first two are handed
    back blank, not with the ranks 1 and 2. *)
Lemma unranked_mapping_rank_lost :
  let table : gmap string (list (Z * Mapping)) :=
    {[ "P" := [(Int64.max_signed, mapping_on 1 Int64.max_signed)] ]} in
  let files : gmap string (list Graph) :=
    {[ "a" := [single_path "P" [mapping_on 7 0]];
       "b" := [single_path "P" [mapping_on 3 0]];
       "c" := [single_path "P" [mapping_on 5 0]] ]} in
  (forall m, (Int64.max_signed + 1, m) ∉ table_of (file_mapping "P" (mapping_on 7 0) table) "P") /\
  chunks_of files ["a"; "b"; "c"] =
    [single_path "P" [mapping_on 7 0]; single_path "P" [mapping_on 3 0];
     single_path "P" [mapping_on 5 0]] /\
  ~ exists record,
      removed_paths
        (fst (to_xg (only "P") (fun _ => mapping_on 0 0) ["a"; "b"; "c"] files ∅)) !! "P" =
        Some record /\
      mapping_rank <$> path_mapping record = [1; 2; 3].
Proof.
  intros table files. split; [|split; [reflexivity|]].
  - intros m Hin.
    assert (table_of (file_mapping "P" (mapping_on 7 0) table) "P" =
            [(Int64.min_signed, mapping_on 7 Int64.min_signed);
             (Int64.max_signed, mapping_on 1 Int64.max_signed)]) as Hfiled.
    { vm_compute. reflexivity. }
    rewrite Hfiled in Hin.
    apply elem_of_cons in Hin as [Hin|Hin]; [discriminate Hin|].
    apply list_elem_of_singleton in Hin. discriminate Hin.
  - intros (record & Hrecord & Hranks).
    assert (removed_paths
              (fst (to_xg (only "P") (fun _ => mapping_on 0 0) ["a"; "b"; "c"] files ∅))
              !! "P" =
            Some {| path_name := "P";
                    path_mapping := [mapping_on 0 0; mapping_on 0 0; mapping_on 5 3] |})
      as Hheld.
    { vm_compute. reflexivity. }
    rewrite Hheld in Hrecord. injection Hrecord as <-. discriminate Hranks.
Qed.

Lemma List_filter_sublist {A} (f : A -> bool) (l : list A) :
  List.filter f l `sublist_of` l.
Proof.
  induction l as [|x l IH]; simpl; [done|].
  destruct (f x); [by apply sublist_skip|by apply sublist_cons].
Qed.

(** A mapping that bears a rank is filed as it is. *)
Lemma filed_ranked arr tbl :
  Forall (fun a : string * Mapping => mapping_rank a.2 <> 0) arr -> filed arr tbl = arr.
Proof.
  revert tbl. induction arr as [|[n m] arr IH]; intros tbl Hranked; simpl; [done|].
  apply Forall_cons in Hranked as [Hm Hranked].
  rewrite stamp_ranked by done. by rewrite IH.
Qed.

Lemma sorted_lt_NoDup (l : list Z) : StronglySorted Z.lt l -> NoDup l.
Proof.
  induction 1 as [|x l _ IH Hx]; constructor; [|done].
  intros Hin. rewrite Forall_forall in Hx. specialize (Hx _ Hin). lia.
Qed.

(** The Path rebuilt from the table that a run of arrivals leaves under a
    name: its mappings are in ascending order of rank, and they are the
    mappings filed under the name after which no mapping was filed under
    the same name and rank. *)
Lemma table_record_elem N arrivals t :
  file_all arrivals ∅ !! N = Some t ->
  StronglySorted Z.lt (mapping_rank <$> path_mapping (rebuild N t)) /\
  forall m,
    m ∈ path_mapping (rebuild N t) <->
    exists before after,
      filed arrivals ∅ = before ++ (N, m) :: after /\
      forall m', (N, m') ∈ after -> mapping_rank m' <> mapping_rank m.
Proof.
  intros Ht.
  assert (t = table_of (file_all arrivals ∅) N) as Htable.
  { unfold table_of. by rewrite Ht. }
  assert (table_ok t) as Hok.
  { rewrite Htable. apply file_all_ok. apply table_ok_empty. }
  split; [by apply rebuild_ranks|].
  intros m. rewrite (rebuild_elem _ _ _ Hok), Htable, rank_lookup_file_all.
  unfold table_of at 1. rewrite lookup_empty. simpl.
  replace (match last_filed N (mapping_rank m) (filed arrivals ∅) with
           | Some m' => Some m'
           | None => None
           end) with (last_filed N (mapping_rank m) (filed arrivals ∅))
    by (by destruct (last_filed N (mapping_rank m) (filed arrivals ∅))).
  rewrite last_filed_Some. split; [by intros [_ ?]|done].
Qed.

(** Mappings that bear ranks of their own, all different, are all found in
    the Path rebuilt from them. *)
Lemma record_of_ranked_mappings N ms t :
  file_all ((fun m => (N, m)) <$> ms) ∅ !! N = Some t ->
  Forall (fun m => mapping_rank m <> 0) ms ->
  NoDup (mapping_rank <$> ms) ->
  path_mapping (rebuild N t) ≡ₚ ms.
Proof.
  intros Ht Hranked Hdistinct.
  destruct (table_record_elem _ _ _ Ht) as [Hsorted Hrecord].
  apply NoDup_Permutation.
  - eapply NoDup_fmap_1, sorted_lt_NoDup, Hsorted.
  - by eapply NoDup_fmap_1.
  - intros m. rewrite Hrecord, filed_ranked.
    2:{ apply Forall_fmap. eapply Forall_impl; [exact Hranked|]. done. }
    split.
    + intros (before & after & Harr & _).
      assert ((N, m) ∈ (fun m => (N, m)) <$> ms) as Hin.
      { rewrite Harr. apply elem_of_app. right. by left. }
      apply list_elem_of_fmap in Hin as (m' & [= ->] & Hm'). done.
    + intros (l1 & l2 & ->)%list_elem_of_split.
      exists ((fun m => (N, m)) <$> l1), ((fun m => (N, m)) <$> l2).
      split; [by rewrite fmap_app|].
      intros m' (m0 & [= ->] & Hm0)%list_elem_of_fmap Hrank.
      rewrite fmap_app, fmap_cons in Hdistinct.
      apply NoDup_app in Hdistinct as (_ & _ & [Hfresh _]%NoDup_cons).
      apply Hfresh. rewrite <- Hrank. apply list_elem_of_fmap. by exists m0.
Qed.

(** C4, as amended.  Every chunk of every file is handed to the index
    builder, in order, with its nodes and edges, and with the paths whose
    name does not match, in the order they had: the paths of the chunk
    shipped are the paths of the chunk read that do not match, and no
    others.  Of a chunk with a matching path P1 and another path P2, the
    chunk shipped holds P2 only and nothing is handed back under the name of
    P2.  When P1 has a mapping, a Path of its name is handed back under its
    name, with its mappings in ascending order of rank: they are the
    mappings of P1 as they were filed, each one after which none was filed
    under its rank, and they are the mappings of P1, no more and no fewer,
    when these bear ranks of their own, all different.  When P1 has no
    mapping, nothing is handed back under its name. *)
Theorem to_xg_ships_kept_paths paths_to_take moved_from :
  (forall filenames files removed,
      (forall name, name ∈ filenames -> is_Some (files !! name)) ->
      let r := to_xg paths_to_take moved_from filenames files removed in
      snd r = None /\
      Forall2 (fun chunk out =>
                 graph_node out = graph_node chunk /\
                 graph_edge out = graph_edge chunk /\
                 graph_path out =
                   List.filter (fun p => negb (paths_to_take (path_name p)))
                               (graph_path chunk) /\
                 graph_path out `sublist_of` graph_path chunk /\
                 forall p, p ∈ graph_path out <->
                           p ∈ graph_path chunk /\ paths_to_take (path_name p) = false)
              (chunks_of files filenames) (shipped (fst r))) /\
  (forall f files removed chunk P1 P2,
      files !! f = Some [chunk] ->
      graph_path chunk = [P1; P2] ->
      paths_to_take (path_name P1) = true ->
      paths_to_take (path_name P2) = false ->
      let r := to_xg paths_to_take moved_from [f] files removed in
      let arrivals := (fun m => (path_name P1, m)) <$> path_mapping P1 in
      graph_path <$> shipped (fst r) = [[P2]] /\
      removed_paths (fst r) !! path_name P2 = removed !! path_name P2 /\
      (path_mapping P1 = [] ->
       removed_paths (fst r) !! path_name P1 = removed !! path_name P1) /\
      (path_mapping P1 <> [] ->
       exists record,
         removed_paths (fst r) !! path_name P1 = Some record /\
         path_name record = path_name P1 /\
         StronglySorted Z.lt (mapping_rank <$> path_mapping record) /\
         (forall m,
             m ∈ path_mapping record <->
             exists before after,
               filed arrivals ∅ = before ++ (path_name P1, m) :: after /\
               forall m', (path_name P1, m') ∈ after ->
                          mapping_rank m' <> mapping_rank m) /\
         (Forall (fun m => mapping_rank m <> 0) (path_mapping P1) ->
          NoDup (mapping_rank <$> path_mapping P1) ->
          path_mapping record ≡ₚ path_mapping P1))).
Proof.
  split.
  - intros filenames files removed Hfiles r. subst r. unfold to_xg.
    destruct (to_xg_from_shipped paths_to_take moved_from filenames files
                {| mappings := ∅; removed_paths := removed; shipped := [] |} Hfiles)
      as [Hnone Hshipped].
    split; [done|]. rewrite Hshipped. simpl.
    apply Forall2_fmap_r, Forall_Forall2_diag, Forall_forall.
    intros chunk _. simpl. split; [done|]. split; [done|]. split; [done|].
    split; [apply List_filter_sublist|].
    intros p. rewrite !list_elem_of_In, filter_In, negb_true_iff. done.
  - intros f files removed chunk P1 P2 Hfile Hpaths Htake Hkeep r arrivals.
    assert (forall name, name ∈ [f] -> is_Some (files !! name)) as Hfiles.
    { intros name ->%list_elem_of_singleton. eauto. }
    assert (arrivals_of paths_to_take files [f] = arrivals) as Harrivals.
    { unfold arrivals_of, chunks_of. csimpl. rewrite Hfile. csimpl.
      rewrite !app_nil_r. unfold taken_mappings. rewrite Hpaths. simpl.
      rewrite Htake, Hkeep. csimpl. by rewrite app_nil_r. }
    destruct (to_xg_record paths_to_take moved_from [f] files removed) as [_ Hrecord];
      [right; simpl; lia|done|].
    subst r. split; [|split; [|split]].
    + unfold to_xg.
      destruct (to_xg_from_shipped paths_to_take moved_from [f] files
                  {| mappings := ∅; removed_paths := removed; shipped := [] |} Hfiles)
        as [_ ->].
      unfold chunks_of. csimpl. rewrite Hfile. simpl. rewrite Hpaths. simpl.
      by rewrite Htake, Hkeep.
    + rewrite Hrecord, Harrivals, lookup_file_all_other; [by rewrite lookup_empty|].
      intros m (m1 & [= Hname _] & _)%list_elem_of_fmap.
      rewrite Hname in Hkeep. congruence.
    + intros Hnone. rewrite Hrecord, Harrivals. unfold arrivals. by rewrite Hnone.
    + intros Hmappings. rewrite Hrecord, Harrivals.
      destruct (lookup_file_all_is_Some (path_name P1) arrivals ∅) as [t Ht].
      { right. unfold arrivals. destruct (path_mapping P1) as [|m ms]; [done|].
        exists m. by left. }
      rewrite Ht. exists (rebuild (path_name P1) t).
      destruct (table_record_elem _ _ _ Ht) as [Hsorted Helem].
      split; [done|]. split; [done|]. split; [done|]. split; [done|].
      intros Hranked Hdistinct. by apply record_of_ranked_mappings.
Qed.

(** C4, as stated, fails for a matching path without mappings:
    the path "P" is taken out of the chunk, which is shipped with the path
    "Q" only, and nothing is handed back under its name. *)
Lemma to_xg_drops_empty_path :
  let P1 := {| path_name := "P"; path_mapping := [] |} in
  let P2 := {| path_name := "Q"; path_mapping := [mapping_on 2 1] |} in
  let files : gmap string (list Graph) :=
    {[ "f" := [{| graph_node := []; graph_edge := []; graph_path := [P1; P2] |}] ]} in
  let r := to_xg (only "P") (fun m => m) ["f"] files ∅ in
  graph_path <$> shipped (fst r) = [[P2]] /\
  ~ exists record, removed_paths (fst r) !! "P" = Some record.
Proof.
  intros P1 P2 files r. split; [reflexivity|].
  intros (record & Hrecord).
  assert (removed_paths (fst r) !! "P" = None) as Hnone by (vm_compute; reflexivity).
  rewrite Hnone in Hrecord. discriminate Hrecord.
Qed.

Lemma to_xg_from_sorted paths_to_take moved_from filenames files st :
  (forall N, StronglySorted Z.lt (fst <$> table_of (mappings st) N)) ->
  forall N, StronglySorted Z.lt
              (fst <$> table_of
                 (mappings (fst (to_xg_from paths_to_take moved_from filenames files st))) N).
Proof.
  revert st. induction filenames as [|name rest IH]; intros st Hsorted; simpl; [done|].
  destruct (files !! name) as [chunks|]; [|done].
  apply IH. apply reconstitute_sorted. rewrite foldl_handle_graph. simpl.
  by apply file_all_sorted.
Qed.



(** ** KmerPipeline *)

Lemma cache_kmer_bounded st o :
  Forall (fun buf => Z.of_nat (length buf) <= buffer_max_size) (buffer st) ->
  Forall (fun buf => Z.of_nat (length buf) <= buffer_max_size) (buffer (cache_kmer st o)).
Proof.
  intros Hbound. unfold cache_kmer.
  destruct (allATGC (occ_kmer o)); [|done].
  destruct (buffer st !! occ_tid o) as [buf|] eqn:Hbuf; [|done].
  destruct (buffer_max_size <? Z.of_nat (length (buf ++ [kmer_match o]))) eqn:Hfull; simpl.
  - apply Forall_insert; [done|]. unfold buffer_max_size. simpl. lia.
  - apply Forall_insert; [done|]. lia.
Qed.

Lemma cache_all_bounded st occurrences :
  Forall (fun buf => Z.of_nat (length buf) <= buffer_max_size) (buffer st) ->
  Forall (fun buf => Z.of_nat (length buf) <= buffer_max_size)
         (buffer (foldl cache_kmer st occurrences)).
Proof.
  revert st. induction occurrences as [|o os IH]; intros st Hbound; simpl; [done|].
  apply IH. by apply cache_kmer_bounded.
Qed.

(** Below the threshold, the matches pile up in the buffer of the worker
    and nothing is written. *)
Lemma cache_fill tid occurrences st buf :
  buffer st !! tid = Some buf ->
  Forall (fun o => occ_tid o = tid /\ allATGC (occ_kmer o) = true) occurrences ->
  Z.of_nat (length buf) + Z.of_nat (length occurrences) <= buffer_max_size ->
  foldl cache_kmer st occurrences =
  {| buffer := <[tid := buf ++ (kmer_match <$> occurrences)]> (buffer st);
     indexer_index := indexer_index st |}.
Proof.
  revert st buf. induction occurrences as [|o os IH]; intros st buf Hbuf Hvalid Hroom.
  - simpl. rewrite app_nil_r, list_insert_id by done. by destruct st.
  - apply Forall_cons in Hvalid as [[Htid Hatgc] Hvalid]. cbn [length] in Hroom.
    simpl foldl. unfold cache_kmer at 2. rewrite Hatgc, Htid, Hbuf.
    replace (buffer_max_size <? Z.of_nat (length (buf ++ [kmer_match o]))) with false.
    2:{ rewrite length_app. cbn [length]. symmetry. apply Z.ltb_ge. lia. }
    rewrite (IH _ (buf ++ [kmer_match o])).
    + simpl. rewrite list_insert_insert_eq. by rewrite <- app_assoc.
    + simpl. apply list_lookup_insert_eq. by eapply lookup_lt_Some.
    + done.
    + rewrite length_app. cbn [length]. lia.
Qed.

Lemma flush_empty_buffers n index :
  index_db (foldl (fun index buf => write_buffer buf index) index (replicate n [])) =
  index_db index ++ replicate n [].
Proof.
  revert index. induction n as [|n IH]; intros index; simpl.
  - by rewrite app_nil_r.
  - rewrite IH. simpl. by rewrite <- app_assoc.
Qed.

(** The 100,001st match of a worker flushes its buffer. *)
Lemma cache_overflow thread_count tid occurrences index :
  (tid < thread_count)%nat ->
  Z.of_nat (length occurrences) = 100001 ->
  Forall (fun o => occ_tid o = tid /\ allATGC (occ_kmer o) = true) occurrences ->
  foldl cache_kmer {| buffer := replicate thread_count []; indexer_index := index |}
        occurrences =
  {| buffer := replicate thread_count [];
     indexer_index := write_buffer (kmer_match <$> occurrences) index |}.
Proof.
  intros Htid Hlen Hvalid.
  destruct occurrences as [|o os _] using rev_ind; [done|].
  rewrite length_app in Hlen. cbn [length] in Hlen.
  assert (Z.of_nat (length os) = 100000) as Hos_len by lia.
  apply Forall_app in Hvalid as [Hos [[Ho Hatgc] _]%Forall_cons].
  rewrite foldl_app. cbn [foldl].
  rewrite (cache_fill tid os _ []).
  - unfold cache_kmer. cbn [buffer indexer_index]. rewrite Hatgc, Ho.
    rewrite list_lookup_insert_eq by (by rewrite length_replicate).
    match goal with
    | |- context [buffer_max_size <? ?size] =>
        replace (buffer_max_size <? size) with true
    end.
    2:{ symmetry. apply Z.ltb_lt. rewrite app_nil_l, length_app, length_fmap.
        cbn [length]. unfold buffer_max_size. lia. }
    rewrite list_insert_insert_eq, fmap_app. simpl.
    rewrite list_insert_id; [done|]. by apply lookup_replicate.
  - apply lookup_replicate. done.
  - done.
  - cbn [length]. unfold buffer_max_size. lia.
Qed.

(** The flush that ends the work on a graph writes one batch per buffer,
    holding what the buffer holds. *)
Lemma flush_buffers_batches st :
  index_db (indexer_index (flush_buffers st)) =
  index_db (indexer_index st) ++ ((fun buf : list KmerMatch => batch_kmer <$> buf) <$> buffer st).
Proof.
  unfold flush_buffers. cbn [indexer_index].
  generalize (indexer_index st) as index.
  induction (buffer st) as [|buf bufs IH]; intros index; simpl.
  - by rewrite app_nil_r.
  - rewrite IH. simpl. by rewrite <- app_assoc.
Qed.

(** 100,001 matches of a worker and no more than 100,000 after them: the
    first are written by the last of them, the others stay in the buffer. *)
Lemma cache_overflow_rest thread_count tid first rest index :
  (tid < thread_count)%nat ->
  Z.of_nat (length first) = 100001 ->
  Z.of_nat (length rest) <= 100000 ->
  Forall (fun o => occ_tid o = tid /\ allATGC (occ_kmer o) = true) (first ++ rest) ->
  foldl cache_kmer {| buffer := replicate thread_count []; indexer_index := index |}
        (first ++ rest) =
  {| buffer := <[tid := kmer_match <$> rest]> (replicate thread_count []);
     indexer_index := write_buffer (kmer_match <$> first) index |}.
Proof.
  intros Htid Hfirst Hrest [Hvalid1 Hvalid2]%Forall_app.
  rewrite foldl_app, (cache_overflow _ _ _ _ Htid Hfirst Hvalid1).
  rewrite (cache_fill tid rest _ []); [done| |done|].
  - cbn [buffer]. by apply lookup_replicate.
  - cbn [length]. unfold buffer_max_size. lia.
Qed.

(** C6.  Between two calls of [cache_kmer], no buffer holds more than
    100,000 matches.  A match of canonical symbols is appended to the
    buffer of its worker; when that makes more than 100,000 of them, they
    are written to the index in one batch and the buffer is cleared, and
    otherwise nothing is written.  Hence 100,001 such matches of one worker,
    in buffers that were empty, are written in one batch, by the last of
    them, and leave all buffers empty; the flush that ends the work on the
    graph then writes one batch per buffer, empty ones here, and drops the
    buffers.  This is what the action of [index_kmers] does on a graph with
    these occurrences.  Whatever the buffers hold, the flush that ends the
    work writes one batch per buffer, holding what the buffer holds, and
    drops the buffers; the batches are given up to their order, the loop
    that writes them being a parallel one.  So the matches that follow the
    100,001 of a worker, 100,000 of them at most, stay in its buffer and are
    written by that flush, in a batch of their own. *)
Theorem index_kmers_buffer_flush :
  (forall thread_count occurrences index,
      Forall (fun buf => Z.of_nat (length buf) <= buffer_max_size)
             (buffer (foldl cache_kmer
                        {| buffer := replicate thread_count []; indexer_index := index |}
                        occurrences))) /\
  (forall st o buf,
      allATGC (occ_kmer o) = true ->
      buffer st !! occ_tid o = Some buf ->
      (buffer_max_size < Z.of_nat (length buf) + 1 ->
       cache_kmer st o =
       {| buffer := <[occ_tid o := []]> (buffer st);
          indexer_index :=
            {| index_db := index_db (indexer_index st)
                           ++ [batch_kmer <$> (buf ++ [kmer_match o])];
               index_kmer_size := index_kmer_size (indexer_index st) |} |}) /\
      (Z.of_nat (length buf) + 1 <= buffer_max_size ->
       cache_kmer st o =
       {| buffer := <[occ_tid o := buf ++ [kmer_match o]]> (buffer st);
          indexer_index := indexer_index st |})) /\
  (forall thread_count tid occurrences index,
      (tid < thread_count)%nat ->
      Z.of_nat (length occurrences) = 100001 ->
      Forall (fun o => occ_tid o = tid /\ allATGC (occ_kmer o) = true) occurrences ->
      let st := foldl cache_kmer
                  {| buffer := replicate thread_count []; indexer_index := index |}
                  occurrences in
      index_db (indexer_index st) =
        index_db index ++ [batch_kmer <$> (kmer_match <$> occurrences)] /\
      buffer st = replicate thread_count [] /\
      index_db (indexer_index (flush_buffers st)) =
        index_db index ++ [batch_kmer <$> (kmer_match <$> occurrences)]
        ++ replicate thread_count [] /\
      buffer (flush_buffers st) = []) /\
  (forall thread_count enumerate kmer_size path_only edge_max stride allow_negatives
          tid index g,
      (tid < thread_count)%nat ->
      Z.of_nat (length (enumerate g kmer_size path_only edge_max stride allow_negatives))
        = 100001 ->
      Forall (fun o => occ_tid o = tid /\ allATGC (occ_kmer o) = true)
             (enumerate g kmer_size path_only edge_max stride allow_negatives) ->
      index_db (fst (index_kmers_lambda thread_count enumerate kmer_size path_only
                       edge_max stride allow_negatives index g)) =
      index_db index
      ++ [batch_kmer <$> (kmer_match <$>
            enumerate g kmer_size path_only edge_max stride allow_negatives)]
      ++ replicate thread_count []) /\
  (forall st,
      buffer (flush_buffers st) = [] /\
      exists flushed,
        index_db (indexer_index (flush_buffers st)) =
          index_db (indexer_index st) ++ flushed /\
        flushed ≡ₚ (fun buf : list KmerMatch => batch_kmer <$> buf) <$> buffer st) /\
  (forall thread_count enumerate kmer_size path_only edge_max stride allow_negatives
          tid index g first rest,
      (tid < thread_count)%nat ->
      enumerate g kmer_size path_only edge_max stride allow_negatives = first ++ rest ->
      Z.of_nat (length first) = 100001 ->
      Z.of_nat (length rest) <= 100000 ->
      Forall (fun o => occ_tid o = tid /\ allATGC (occ_kmer o) = true) (first ++ rest) ->
      buffer (foldl cache_kmer
                {| buffer := replicate thread_count []; indexer_index := index |}
                (first ++ rest)) =
        <[tid := kmer_match <$> rest]> (replicate thread_count []) /\
      exists flushed,
        index_db (fst (index_kmers_lambda thread_count enumerate kmer_size path_only
                         edge_max stride allow_negatives index g)) =
          index_db index ++ [batch_kmer <$> (kmer_match <$> first)] ++ flushed /\
        flushed ≡ₚ <[tid := batch_kmer <$> (kmer_match <$> rest)]>
                     (replicate thread_count [])).
Proof.
  split; [|split; [|split; [|split; [|split]]]].
  - intros thread_count occurrences index. apply cache_all_bounded. simpl.
    apply Forall_replicate. unfold buffer_max_size. simpl. lia.
  - intros st o buf Hatgc Hbuf. unfold cache_kmer. rewrite Hatgc, Hbuf.
    rewrite length_app. simpl. split; intros Hsize.
    + replace (buffer_max_size <? Z.of_nat (length buf + 1)) with true; [done|].
      symmetry. apply Z.ltb_lt. lia.
    + replace (buffer_max_size <? Z.of_nat (length buf + 1)) with false; [done|].
      symmetry. apply Z.ltb_ge. lia.
  - intros thread_count tid occurrences index Htid Hlen Hvalid st. subst st.
    rewrite (cache_overflow _ _ _ _ Htid Hlen Hvalid). simpl.
    split; [done|]. split; [done|]. split; [|done].
    rewrite flush_empty_buffers. simpl. by rewrite <- app_assoc.
  - intros thread_count enumerate kmer_size path_only edge_max stride allow_negatives
           tid index g Htid Hlen Hvalid.
    unfold index_kmers_lambda. simpl.
    rewrite (cache_overflow _ _ _ _ Htid Hlen Hvalid). simpl.
    rewrite flush_empty_buffers. simpl. by rewrite <- app_assoc.
  - intros st. split; [done|].
    exists ((fun buf : list KmerMatch => batch_kmer <$> buf) <$> buffer st).
    split; [apply flush_buffers_batches|done].
  - intros thread_count enumerate kmer_size path_only edge_max stride allow_negatives
           tid index g first rest Htid Henum Hfirst Hrest Hvalid.
    rewrite (cache_overflow_rest _ _ _ _ _ Htid Hfirst Hrest Hvalid).
    split; [done|].
    exists (<[tid := batch_kmer <$> (kmer_match <$> rest)]> (replicate thread_count [])).
    split; [|done].
    unfold index_kmers_lambda. cbn [fst]. rewrite Henum.
    rewrite (cache_overflow_rest _ _ _ _ _ Htid Hfirst Hrest Hvalid).
    rewrite flush_buffers_batches. cbn [buffer indexer_index].
    rewrite list_fmap_insert, fmap_replicate. unfold write_buffer. cbn [index_db].
    by rewrite <- app_assoc.
Qed.

(** ** KmerPositionExporter *)

(** *** Strings and their characters *)

Lemma string_of_list_ascii_app l1 l2 :
  string_of_list_ascii (l1 ++ l2) = string_of_list_ascii l1 +:+ string_of_list_ascii l2.
Proof. induction l1 as [|c l1 IH]; simpl; [done|]. by rewrite IH. Qed.

Lemma list_ascii_of_string_app s1 s2 :
  list_ascii_of_string (s1 +:+ s2) = list_ascii_of_string s1 ++ list_ascii_of_string s2.
Proof. induction s1 as [|c s1 IH]; simpl; [done|]. by rewrite IH. Qed.

Lemma with_commas_snoc items x :
  with_commas (items ++ [x]) = with_commas items ++ list_ascii_of_string x ++ [","%char].
Proof. unfold with_commas. rewrite bind_app. csimpl. by rewrite app_nil_r. Qed.

Lemma with_commas_cons x items :
  with_commas (x :: items) = (list_ascii_of_string x ++ [","%char]) ++ with_commas items.
Proof. done. Qed.

Lemma with_commas_nonempty x items : with_commas (x :: items) <> [].
Proof. rewrite with_commas_cons. by destruct (list_ascii_of_string x). Qed.

(** A run of items with a comma after each, less the last comma, is the
    items with a comma between them. *)
Lemma removelast_with_commas items :
  items <> [] ->
  removelast (with_commas items) = list_ascii_of_string (comma_joined items).
Proof.
  induction items as [|x items IH]; [done|]. intros _.
  destruct items as [|y items].
  - unfold with_commas. csimpl. rewrite app_nil_r. apply removelast_last.
  - rewrite with_commas_cons, removelast_app by apply with_commas_nonempty.
    rewrite IH by done. cbn [comma_joined].
    rewrite !list_ascii_of_string_app. simpl. by rewrite <- app_assoc.
Qed.

Lemma with_commas_last items :
  items <> [] ->
  with_commas items = list_ascii_of_string (comma_joined items) ++ [","%char].
Proof.
  intros Hne. rewrite <- (removelast_with_commas _ Hne).
  destruct items as [|x items _] using rev_ind; [done|].
  rewrite with_commas_snoc, !app_assoc. by rewrite removelast_last.
Qed.

(** *** Writing at the end of a stream, and over its last character *)

Lemma ss_write_ended s l : ss_write s (ended l) = ended (l ++ s).
Proof.
  unfold ss_write, ended. simpl.
  rewrite take_ge, drop_ge, app_nil_r, length_app by lia. done.
Qed.

Lemma put_char_ended c l : put_char c (ended l) = ended (l ++ [c]).
Proof. apply ss_write_ended. Qed.

Lemma put_string_ended s l :
  put_string s (ended l) = ended (l ++ list_ascii_of_string s).
Proof. apply ss_write_ended. Qed.

Lemma put_strings_ended ps l :
  foldl (fun line p => put_char "," (put_string p line)) (ended l) ps =
  ended (l ++ with_commas ps).
Proof.
  revert l. induction ps as [|p ps IH]; intros l; cbn [foldl].
  - unfold with_commas. csimpl. by rewrite app_nil_r.
  - rewrite put_string_ended, put_char_ended, IH, with_commas_cons.
    by rewrite <- !app_assoc.
Qed.

Lemma put_chars_ended cs l :
  foldl (fun line c => put_char "," (put_char c line)) (ended l) cs =
  ended (l ++ with_commas ((fun c => String c "") <$> cs)).
Proof.
  revert l. induction cs as [|c cs IH]; intros l; cbn [foldl].
  - unfold with_commas. csimpl. by rewrite app_nil_r.
  - rewrite !put_char_ended, IH, fmap_cons, with_commas_cons. simpl.
    by rewrite <- !app_assoc.
Qed.

(** Seeking back by one and writing a character replaces the last one. *)
Lemma overwrite_last l c d :
  put_char d (seekp_cur (-1) (ended (l ++ [c]))) = ended (l ++ [d]).
Proof.
  unfold put_char, seekp_cur, ss_write, ended. cbn [ss_fail ss_put ss_chars].
  rewrite length_app. cbn [length].
  destruct ((0 <=? Z.of_nat (length l + 1) + -1) &&
            (Z.of_nat (length l + 1) + -1 <=? Z.of_nat (length l + 1)))%bool eqn:Hin.
  2:{ apply andb_false_iff in Hin as [Hin|Hin]; apply Z.leb_gt in Hin; lia. }
  cbn [ss_fail ss_put ss_chars].
  replace (Z.to_nat (Z.of_nat (length l + 1) + -1)) with (length l) by lia.
  rewrite take_app_length, drop_ge by (rewrite length_app; simpl; lia).
  rewrite length_app. done.
Qed.

(** A column of characters and the TAB that ends it. *)
Lemma char_column_written (none : ascii) cs l :
  put_char TAB
    (match cs with
     | _ :: _ =>
         seekp_cur (-1) (foldl (fun line c => put_char "," (put_char c line)) (ended l) cs)
     | [] => put_char none (foldl (fun line c => put_char "," (put_char c line)) (ended l) cs)
     end) =
  ended (l ++ list_ascii_of_string (char_column (String none "") cs) ++ [TAB]).
Proof.
  rewrite put_chars_ended. destruct cs as [|c cs].
  - simpl. rewrite app_nil_r. by rewrite !put_char_ended, <- app_assoc.
  - rewrite with_commas_last by done. rewrite app_assoc, overwrite_last.
    by rewrite <- app_assoc.
Qed.

(** The last column. *)
Lemma next_column_written start_id ps l :
  match ps with
  | [] =>
      ss_str (put_string ":0"
                (put_int64 start_id
                   (foldl (fun line p => put_char "," (put_string p line)) (ended l) ps)))
  | _ :: _ =>
      pop_back (ss_str (foldl (fun line p => put_char "," (put_string p line)) (ended l) ps))
  end =
  string_of_list_ascii (l ++ list_ascii_of_string (next_column start_id ps)).
Proof.
  rewrite put_strings_ended. destruct ps as [|p ps].
  - unfold put_int64. rewrite !put_string_ended. unfold ss_str. simpl.
    rewrite app_nil_r, list_ascii_of_string_app. by rewrite <- app_assoc.
  - unfold pop_back, ss_str, ended. cbn [ss_chars].
    rewrite list_ascii_of_string_of_list_ascii.
    rewrite removelast_app by apply with_commas_nonempty.
    by rewrite removelast_with_commas.
Qed.

Lemma write_kmer_text_record start_id kp :
  write_kmer start_id kp = text_record start_id kp.
Proof.
  unfold write_kmer. change ss_new with (ended []).
  rewrite put_string_ended, put_char_ended, put_string_ended, put_char_ended.
  rewrite char_column_written, char_column_written, next_column_written.
  rewrite <- (string_of_list_ascii_of_string (text_record start_id kp)).
  f_equal. unfold text_record. rewrite !list_ascii_of_string_app. simpl.
  by rewrite <- !app_assoc.
Qed.

(** *** The streams *)

Lemma string_app_assoc s1 s2 s3 : (s1 +:+ s2) +:+ s3 = s1 +:+ s2 +:+ s3.
Proof.
  induction s1 as [|c s1 IH]; [done|].
  change (String c ((s1 +:+ s2) +:+ s3) = String c (s1 +:+ s2 +:+ s3)). by f_equal.
Qed.

Lemma string_app_nil_r s : s +:+ "" = s.
Proof.
  induction s as [|c s IH]; [done|].
  change (String c (s +:+ "") = String c s). by f_equal.
Qed.

Lemma write_lines_cout (records : list string) (σ : gmap nat string) :
  written cout (foldl (fun streams record => write_line cout record streams) σ records) =
  written cout σ +:+ lines records.
Proof.
  revert σ. induction records as [|record records IH]; intros σ; simpl.
  - by rewrite string_app_nil_r.
  - rewrite IH. unfold written at 1, write_line. rewrite lookup_insert_eq. simpl.
    by rewrite !string_app_assoc.
Qed.

Lemma write_lines_other (records : list string) (σ : gmap nat string) (o : ostream) :
  o <> cout ->
  foldl (fun streams record => write_line cout record streams) σ records !! o = σ !! o.
Proof.
  intros Ho. revert σ. induction records as [|record records IH]; intros σ; simpl; [done|].
  rewrite IH. unfold write_line. by rewrite lookup_insert_ne.
Qed.

Lemma foldl_fmap_lines {A} (f : A -> string) (l : list A) (σ : gmap nat string) :
  foldl (fun streams x => write_line cout (f x) streams) σ l =
  foldl (fun streams record => write_line cout record streams) σ (f <$> l).
Proof. revert σ. induction l as [|x l IH]; intros σ; simpl; [done|]. by rewrite IH. Qed.

(** A read-only traversal whose action leaves a stream alone leaves it
    alone. *)
Lemma for_each_untouched (lambda : Export -> VG -> Export * VG) (o : ostream)
    filenames e w :
  (forall e g, streams (fst (lambda e g)) !! o = streams e !! o) ->
  streams (captured (for_each lambda filenames e w)) !! o = streams e !! o.
Proof.
  intros Hlambda. revert e w.
  induction filenames as [|name rest IH]; intros e w; simpl; [done|].
  destruct (load name w) as [[g w1]|]; simpl; [|done].
  destruct (lambda e (set_name name g)) as [e' g'] eqn:Hstep.
  rewrite IH. specialize (Hlambda e (set_name name g)). by rewrite Hstep in Hlambda.
Qed.

Section ExportFacts.

Variable enumerate : VG -> Z -> bool -> Z -> Z -> bool -> Z -> Z -> Z * Z * list KmerPosition.
Variable kmer_t : Type.
Variable show_kmer : kmer_t -> string.
Variable add_markers : VG -> Z -> Z -> Z -> VG * Z * Z.
Variable kmers : VG -> Z -> Z -> Z -> list kmer_t.

Lemma gcsa_out_old_lambda_cout kmer_size path_only forward_only e g
      start_id end_id positions :
  enumerate g kmer_size path_only 0 1 forward_only (head_id e) (tail_id e) =
    (start_id, end_id, positions) ->
  written cout
    (streams (fst (gcsa_out_old_lambda enumerate kmer_size path_only forward_only e g))) =
  written cout (streams e) +:+ lines (write_kmer start_id <$> positions).
Proof.
  intros Henum. unfold gcsa_out_old_lambda. rewrite Henum. simpl.
  by rewrite foldl_fmap_lines, write_lines_cout.
Qed.

Lemma gcsa_out_old_lambda_other kmer_size path_only forward_only e g o :
  o <> cout ->
  streams (fst (gcsa_out_old_lambda enumerate kmer_size path_only forward_only e g)) !! o =
  streams e !! o.
Proof.
  intros Ho. unfold gcsa_out_old_lambda.
  destruct (enumerate _ _ _ _ _ _ _ _) as [[start_id end_id] positions]. simpl.
  by rewrite foldl_fmap_lines, write_lines_other.
Qed.

Lemma gcsa_out_handle_lambda_cout kmer_size e g g' head tail :
  add_markers g kmer_size (head_id e) (tail_id e) = (g', head, tail) ->
  written cout
    (streams (fst (gcsa_out_handle_lambda kmer_t show_kmer add_markers kmers
                     kmer_size e g))) =
  written cout (streams e) +:+ lines (show_kmer <$> kmers g' kmer_size head tail).
Proof.
  intros Hmark. unfold gcsa_out_handle_lambda. rewrite Hmark. simpl.
  by rewrite foldl_fmap_lines, write_lines_cout.
Qed.

Lemma gcsa_out_handle_lambda_other kmer_size e g o :
  o <> cout ->
  streams (fst (gcsa_out_handle_lambda kmer_t show_kmer add_markers kmers
                  kmer_size e g)) !! o =
  streams e !! o.
Proof.
  intros Ho. unfold gcsa_out_handle_lambda.
  destruct (add_markers _ _ _ _) as [[g' head] tail]. simpl.
  by rewrite foldl_fmap_lines, write_lines_other.
Qed.

End ExportFacts.

(** C7.  The record [write_kmer] makes of a k-mer position is the text of
    five columns with a TAB between them: the k-mer; the position; the
    characters before it with a comma between them, or "$" when there is
    none; the characters after it with a comma between them, or "#" when
    there is none; the next positions with a comma between them, or, when
    there is none, the id of the start node followed by ":0".  Each record
    goes to the output on a line of its own.  With no character before and
    A and C after, the third column is "$" and the fourth "A,C". *)
Theorem text_export_record :
  (forall start_id kp, write_kmer start_id kp = text_record start_id kp) /\
  (forall enumerate kmer_size path_only forward_only e g start_id end_id positions,
      enumerate g kmer_size path_only 0 1 forward_only (head_id e) (tail_id e) =
        (start_id, end_id, positions) ->
      written cout
        (streams (fst (gcsa_out_old_lambda enumerate kmer_size path_only forward_only e g))) =
      written cout (streams e) +:+ lines (text_record start_id <$> positions)) /\
  (forall start_id kmer pos nexts,
      write_kmer start_id
        {| kp_kmer := kmer; kp_pos := pos; kp_prev_chars := [];
           kp_next_chars := ["A"%char; "C"%char]; kp_next_positions := nexts |} =
      kmer +:+ String TAB "" +:+ pos +:+ String TAB "" +:+ "$" +:+ String TAB "" +:+
      "A,C" +:+ String TAB "" +:+ next_column start_id nexts).
Proof.
  split; [|split].
  - apply write_kmer_text_record.
  - intros enumerate kmer_size path_only forward_only e g start_id end_id positions Henum.
    rewrite (gcsa_out_old_lambda_cout _ _ _ _ _ _ _ _ _ Henum). f_equal. f_equal.
    apply list_fmap_ext. intros i kp _. apply write_kmer_text_record.
  - intros start_id kmer pos nexts. by rewrite write_kmer_text_record.
Qed.

(** C9, as amended.  [write_gcsa_out_old] and
    [write_gcsa_out_handle] do not use their parameter [out]: what they do
    is the same for every stream given as [out].  The records of a graph go
    to [cout], one per line, and every stream other than [cout] is left as
    it was; so the stream given as [out] receives nothing unless it is
    [cout] itself. *)
Theorem gcsa_out_writes_to_cout_only
    (enumerate : VG -> Z -> bool -> Z -> Z -> bool -> Z -> Z -> Z * Z * list KmerPosition)
    (kmer_t : Type) (show_kmer : kmer_t -> string)
    (add_markers : VG -> Z -> Z -> Z -> VG * Z * Z)
    (kmers : VG -> Z -> Z -> Z -> list kmer_t)
    (out : ostream) kmer_size path_only forward_only head tail filenames σ w :
  (forall out',
      write_gcsa_out_old enumerate out' kmer_size path_only forward_only head tail
                         filenames σ w =
      write_gcsa_out_old enumerate out kmer_size path_only forward_only head tail
                         filenames σ w) /\
  (forall out',
      write_gcsa_out_handle kmer_t show_kmer add_markers kmers out' kmer_size
                            path_only forward_only head tail filenames σ w =
      write_gcsa_out_handle kmer_t show_kmer add_markers kmers out kmer_size
                            path_only forward_only head tail filenames σ w) /\
  (forall e g start_id end_id positions,
      enumerate g kmer_size path_only 0 1 forward_only (head_id e) (tail_id e) =
        (start_id, end_id, positions) ->
      written cout
        (streams (fst (gcsa_out_old_lambda enumerate kmer_size path_only forward_only e g))) =
      written cout (streams e) +:+ lines (write_kmer start_id <$> positions)) /\
  (forall e g g' head' tail',
      add_markers g kmer_size (head_id e) (tail_id e) = (g', head', tail') ->
      written cout
        (streams (fst (gcsa_out_handle_lambda kmer_t show_kmer add_markers kmers
                         kmer_size e g))) =
      written cout (streams e) +:+ lines (show_kmer <$> kmers g' kmer_size head' tail')) /\
  (forall o,
      o <> cout ->
      untouched o σ
        (streams (captured (write_gcsa_out_old enumerate out kmer_size path_only
                              forward_only head tail filenames σ w))) /\
      untouched o σ
        (streams (captured (write_gcsa_out_handle kmer_t show_kmer add_markers kmers out
                              kmer_size path_only forward_only head tail filenames σ w)))) /\
  (out <> cout ->
      untouched out σ
        (streams (captured (write_gcsa_out_old enumerate out kmer_size path_only
                              forward_only head tail filenames σ w))) /\
      untouched out σ
        (streams (captured (write_gcsa_out_handle kmer_t show_kmer add_markers kmers out
                              kmer_size path_only forward_only head tail filenames σ w)))).
Proof.
  assert (forall o,
      o <> cout ->
      untouched o σ
        (streams (captured (write_gcsa_out_old enumerate out kmer_size path_only
                              forward_only head tail filenames σ w))) /\
      untouched o σ
        (streams (captured (write_gcsa_out_handle kmer_t show_kmer add_markers kmers out
                              kmer_size path_only forward_only head tail filenames σ w))))
    as Hother.
  { intros o Ho. unfold untouched, write_gcsa_out_old, write_gcsa_out_handle. split.
    - rewrite for_each_untouched; [done|]. intros e g.
      by apply gcsa_out_old_lambda_other.
    - rewrite for_each_untouched; [done|]. intros e g.
      by apply gcsa_out_handle_lambda_other. }
  split; [done|]. split; [done|]. split.
  { intros e g start_id end_id positions. apply gcsa_out_old_lambda_cout. }
  split.
  { intros e g g' head' tail'. apply gcsa_out_handle_lambda_cout. }
  split; [done|]. apply Hother.
Qed.

(** C9, as stated, fails where the stream given as [out] is
    [cout]: the record of the one position of the graph read from standard
    input is received by it. *)
Lemma gcsa_out_old_given_cout :
  ~ untouched cout ∅
      (streams
         (captured
            (write_gcsa_out_old
               (fun _ _ _ _ _ _ head tail =>
                  (head, tail,
                   [{| kp_kmer := "AC"; kp_pos := "1:0"; kp_prev_chars := [];
                       kp_next_chars := []; kp_next_positions := [] |}]))
               cout 2 false false 7 8 ["-"] ∅
               {| disk := ∅; cin := single_node 1 |}))).
Proof. unfold untouched. vm_compute. discriminate. Qed.

(** * The theorems at work *)

Lemma merge_id_space_ranges_witness :
  merged ["a"; "b"] [nodes [1; 2; 3]; nodes [1; 2]]
    {| disk := <["a" := nodes [1; 2; 3]]> (<["b" := nodes [1; 2]]> ∅);
       cin := empty_graph |}.
Proof.
  apply (merge_id_space_ranges ["a"; "b"] [nodes [1; 2; 3]; nodes [1; 2]]).
  - discriminate.
  - compute_done.
  - repeat constructor.
  - repeat constructor; vm_compute; discriminate.
  - vm_compute. discriminate.
Defined.

(** An empty graph between two others: the third is written back as it
    was read, with the identifiers the first one has. *)
Example merge_id_space_after_empty_graph :
  let w := {| disk := <["a" := nodes [1; 2; 3]]>
                        (<["b" := empty_graph]> (<["c" := nodes [1; 2]]> ∅));
              cin := empty_graph |} in
  snd (merge_id_space ["a"; "b"; "c"] w) = Returned 2 /\
  disk (fst (merge_id_space ["a"; "b"; "c"] w)) !! "a" = Some (nodes [1; 2; 3]) /\
  disk (fst (merge_id_space ["a"; "b"; "c"] w)) !! "c" = Some (nodes [1; 2]).
Proof. vm_compute. done. Qed.

(** The same file named twice is shifted by its own maximum; a shift past
    the largest [int64_t] wraps around. *)
Example merge_id_space_same_file_twice :
  let w := {| disk := <["a" := nodes [1; 2]]> ∅; cin := empty_graph |} in
  snd (merge_id_space ["a"; "a"] w) = Returned 4 /\
  disk (fst (merge_id_space ["a"; "a"] w)) !! "a" = Some (nodes [3; 4]).
Proof. vm_compute. done. Qed.

Example merge_id_space_wraps :
  let w := {| disk := <["a" := nodes [Int64.max_signed]]> (<["b" := nodes [1]]> ∅);
              cin := empty_graph |} in
  disk (fst (merge_id_space ["a"; "b"] w)) !! "b" = Some (nodes [Int64.min_signed]).
Proof. vm_compute. done. Qed.

Lemma merge_id_space_shifts_above_zero_only_witness :
  merge_lambda 0 {| vg_name := "a"; vg_graph := nodes [1; 2] |} =
    (2, {| vg_name := "a"; vg_graph := nodes [1; 2] |}) /\
  merge_lambda 3 {| vg_name := "a"; vg_graph := nodes [1; 2] |} =
    (5, {| vg_name := "a"; vg_graph := nodes [4; 5] |}) /\
  exists w' gs',
    merge_id_space ["a"; "b"; "c"]
      {| disk := <["a" := nodes [1; 2; 3]]>
                   (<["b" := empty_graph]> (<["c" := nodes [1; 2]]> ∅));
         cin := empty_graph |} =
      (w', Returned (default 0 (highest_id <$> last gs'))) /\
    Forall2 (fun name g => disk w' !! name = Some g) ["a"; "b"; "c"] gs' /\
    gs' !! 0%nat = [nodes [1; 2; 3]; empty_graph; nodes [1; 2]] !! 0%nat /\
    (forall i g', gs' !! i = Some g' -> highest_id g' <= 0 ->
                  gs' !! S i = [nodes [1; 2; 3]; empty_graph; nodes [1; 2]] !! S i) /\
    (forall i g' g, gs' !! i = Some g' -> 0 < highest_id g' ->
                    [nodes [1; 2; 3]; empty_graph; nodes [1; 2]] !! S i = Some g ->
                    gs' !! S i = Some (shift_graph (highest_id g') g)).
Proof.
  destruct merge_id_space_shifts_above_zero_only as (_ & Hbelow & Habove & Hfiles).
  split; [apply (Hbelow 0); lia|]. split; [apply (Habove 3); lia|].
  apply (Hfiles ["a"; "b"; "c"] [nodes [1; 2; 3]; empty_graph; nodes [1; 2]]).
  - compute_done.
  - repeat constructor.
Defined.

Lemma open_failure_aborts_witness :
  let w := {| disk := <["a" := nodes [1; 2]]> (<["c" := nodes [1]]> ∅);
              cin := empty_graph |} in
  transform merge_lambda (["a"] ++ "b" :: ["c"]) 0 w =
    {| world := world (transform merge_lambda ["a"] 0 w);
       captured := captured (transform merge_lambda ["a"] 0 w);
       thrown := Some ("failed to open " +:+ "b") |} /\
  for_each merge_lambda (["a"] ++ "b" :: ["c"]) 0 w =
    {| world := world (for_each merge_lambda ["a"] 0 w);
       captured := captured (for_each merge_lambda ["a"] 0 w);
       thrown := Some ("failed to open " +:+ "b") |} /\
  to_xg_from (fun _ => true) (fun m => m) (["a"] ++ "b" :: ["c"])
             {[ "a" := [nodes [1]] ]}
             {| mappings := ∅; removed_paths := ∅; shipped := [] |} =
    (fst (to_xg_from (fun _ => true) (fun m => m) ["a"] {[ "a" := [nodes [1]] ]}
            {| mappings := ∅; removed_paths := ∅; shipped := [] |}),
     Some ("failed to open " +:+ "b")) /\
  merge_id_space (["a"] ++ "b" :: ["c"]) w =
    (fst (merge_id_space ["a"] w), Thrown ("failed to open " +:+ "b")).
Proof.
  destruct open_failure_aborts as (Htransform & Hfor_each & Hto_xg & Hmerge & _).
  intros w. split; [|split; [|split]].
  - apply Htransform; [discriminate|reflexivity|reflexivity].
  - apply Hfor_each; [discriminate|reflexivity|reflexivity].
  - apply Hto_xg; reflexivity.
  - apply (Hmerge ["a"] "b" ["c"] w 2); [discriminate|reflexivity|reflexivity].
Defined.

Lemma to_xg_removed_paths_witness :
  let files : gmap string (list Graph) :=
    {[ "f" := [single_path "P" [mapping_on 1 0; mapping_on 2 1; mapping_on 3 5];
               single_path "Q" [mapping_on 4 1]] ]} in
  let arrivals := arrivals_of (only "P") files ["f"] in
  let r := to_xg (only "P") (fun m => m) ["f"] files ∅ in
  snd r = None /\
  forall N,
    ((forall m, (N, m) ∉ arrivals) -> removed_paths (fst r) !! N = (∅ : gmap string Path) !! N) /\
    ((exists m, (N, m) ∈ arrivals) ->
     exists record,
       removed_paths (fst r) !! N = Some record /\
       path_name record = N /\
       StronglySorted Z.lt (mapping_rank <$> path_mapping record) /\
       forall m,
         m ∈ path_mapping record <->
         exists before after,
           filed arrivals ∅ = before ++ (N, m) :: after /\
           forall m', (N, m') ∈ after -> mapping_rank m' <> mapping_rank m).
Proof.
  intros files.
  apply (to_xg_removed_paths (only "P") (fun m => m) ["f"] files ∅).
  - left. reflexivity.
  - intros name Hname. apply list_elem_of_singleton in Hname. subst name.
    exists [single_path "P" [mapping_on 1 0; mapping_on 2 1; mapping_on 3 5];
            single_path "Q" [mapping_on 4 1]].
    reflexivity.
Defined.

(** The Path handed back in this example: the mapping without rank was
    filed first, under rank 1, and the mapping of rank 1 took its place. *)
Example to_xg_removed_paths_example :
  removed_paths
    (fst (to_xg (only "P") (fun m => m) ["f"]
            {[ "f" := [single_path "P" [mapping_on 1 0; mapping_on 2 1; mapping_on 3 5];
                       single_path "Q" [mapping_on 4 1]] ]} ∅)) !! "P" =
  Some {| path_name := "P"; path_mapping := [mapping_on 2 1; mapping_on 3 5] |}.
Proof. vm_compute. done. Qed.

(** Where moving a mapping out of the table leaves a blank one behind, the
    mappings of an earlier file are blank in the Path handed back after a
    later one: the tables are rebuilt after every file. *)
Example to_xg_moved_out_mappings :
  removed_paths
    (fst (to_xg (only "P") (fun _ => mapping_on 0 0) ["f"; "g"]
            {[ "f" := [single_path "P" [mapping_on 1 1]];
               "g" := [single_path "P" [mapping_on 2 2]] ]} ∅)) !! "P" =
  Some {| path_name := "P"; path_mapping := [mapping_on 0 0; mapping_on 2 2] |}.
Proof. vm_compute. done. Qed.

Lemma unranked_mapping_takes_next_rank_witness :
  table_of (file_mapping "P" (mapping_on 7 0) ∅) "P" = [(1, set_rank 1 (mapping_on 7 0))] /\
  table_of (file_mapping "P" (mapping_on 7 0) {[ "P" := [(2, mapping_on 1 2); (5, mapping_on 3 5)] ]})
           "P" =
    table_of {[ "P" := [(2, mapping_on 1 2); (5, mapping_on 3 5)] ]} "P"
    ++ [(5 + 1, set_rank (5 + 1) (mapping_on 7 0))] /\
  removed_paths
    (fst (to_xg (only "P") (fun m => m) ["f"; "g"]
            {[ "f" := [single_path "P" [mapping_on 7 0]; single_path "P" [mapping_on 3 0]];
               "g" := [single_path "P" [mapping_on 5 0]] ]} ∅)) !! "P" =
  Some {| path_name := "P";
          path_mapping := [set_rank 1 (mapping_on 7 0); set_rank 2 (mapping_on 3 0);
                           set_rank 3 (mapping_on 5 0)] |} /\
  fst <$> table_of
    (mappings
       (fst (to_xg (only "P") (fun _ => mapping_on 0 0) ["a"; "b"; "c"]
               {[ "a" := [single_path "P" [mapping_on 7 0]];
                  "b" := [single_path "P" [mapping_on 3 0]];
                  "c" := [single_path "P" [mapping_on 5 0]] ]} ∅))) "P" = [1; 2; 3].
Proof.
  destruct unranked_mapping_takes_next_rank as (Hfirst & Hnext & Hthree & Hfiled).
  split; [|split; [|split]].
  - apply Hfirst; reflexivity.
  - apply Hnext.
    + reflexivity.
    + vm_compute. repeat constructor.
    + vm_compute. right. left.
    + vm_compute. intros rank Hrank.
      apply elem_of_cons in Hrank as [->|Hrank]; [discriminate|].
      apply list_elem_of_singleton in Hrank as ->. discriminate.
    + vm_compute. split; [discriminate|reflexivity].
  - apply (Hthree (only "P") (fun m => m) ["f"; "g"] _ ∅
             (single_path "P" [mapping_on 7 0]) (single_path "P" [mapping_on 3 0])
             (single_path "P" [mapping_on 5 0])).
    + left. reflexivity.
    + intros name Hname. apply elem_of_cons in Hname as [->|Hname].
      * eexists. reflexivity.
      * apply list_elem_of_singleton in Hname as ->. eexists. reflexivity.
    + reflexivity.
    + reflexivity.
    + reflexivity.
    + reflexivity.
    + reflexivity.
    + reflexivity.
    + reflexivity.
  - apply (Hfiled (only "P") (fun _ => mapping_on 0 0) ["a"; "b"; "c"] _ ∅
             (single_path "P" [mapping_on 7 0]) (single_path "P" [mapping_on 3 0])
             (single_path "P" [mapping_on 5 0]) "P"
             (mapping_on 7 0) (mapping_on 3 0) (mapping_on 5 0)); try reflexivity.
    intros name Hname. apply elem_of_cons in Hname as [->|Hname]; [eexists; reflexivity|].
    apply elem_of_cons in Hname as [->|Hname]; [eexists; reflexivity|].
    apply list_elem_of_singleton in Hname as ->. eexists. reflexivity.
Defined.

(** At the largest rank there is, the rank that follows is the smallest
    one: the mapping without rank is filed first, not last. *)
Example unranked_rank_wraps :
  table_of (file_mapping "P" (mapping_on 7 0)
              {[ "P" := [(Int64.max_signed, mapping_on 1 Int64.max_signed)] ]}) "P" =
  [(Int64.min_signed, mapping_on 7 Int64.min_signed);
   (Int64.max_signed, mapping_on 1 Int64.max_signed)].
Proof. vm_compute. done. Qed.

Lemma to_xg_ships_kept_paths_witness :
  let P1 := {| path_name := "P"; path_mapping := [mapping_on 1 2; mapping_on 3 1] |} in
  let P2 := {| path_name := "Q"; path_mapping := [mapping_on 2 1] |} in
  let chunk := {| graph_node := []; graph_edge := []; graph_path := [P1; P2] |} in
  let files : gmap string (list Graph) := {[ "f" := [chunk] ]} in
  let r := to_xg (only "P") (fun m => m) ["f"] files ∅ in
  (snd r = None /\
   Forall2 (fun chunk out =>
              graph_node out = graph_node chunk /\
              graph_edge out = graph_edge chunk /\
              graph_path out =
                List.filter (fun p => negb (only "P" (path_name p))) (graph_path chunk) /\
              graph_path out `sublist_of` graph_path chunk /\
              forall p, p ∈ graph_path out <->
                        p ∈ graph_path chunk /\ only "P" (path_name p) = false)
           (chunks_of files ["f"]) (shipped (fst r))) /\
  graph_path <$> shipped (fst r) = [[P2]] /\
  removed_paths (fst r) !! path_name P2 = (∅ : gmap string Path) !! path_name P2 /\
  exists record,
    removed_paths (fst r) !! path_name P1 = Some record /\
    path_name record = path_name P1 /\
    StronglySorted Z.lt (mapping_rank <$> path_mapping record) /\
    path_mapping record ≡ₚ path_mapping P1.
Proof.
  intros P1 P2 chunk files r.
  destruct (to_xg_ships_kept_paths (only "P") (fun m => m)) as [Hall Hpair].
  split.
  - apply (Hall ["f"] files ∅).
    intros name Hname. apply list_elem_of_singleton in Hname as ->.
    eexists. reflexivity.
  - destruct (Hpair "f" files ∅ chunk P1 P2 eq_refl eq_refl eq_refl eq_refl)
      as (Hshipped & Hother & _ & Htaken).
    split; [exact Hshipped|]. split; [exact Hother|].
    destruct Htaken as (record & Hrecord & Hname & Hsorted & _ & Hexact); [discriminate|].
    exists record. split; [exact Hrecord|]. split; [exact Hname|].
    split; [exact Hsorted|]. apply Hexact.
    + repeat constructor; discriminate.
    + simpl. apply NoDup_cons. split.
      * intros Hin. apply list_elem_of_singleton in Hin. discriminate Hin.
      * apply NoDup_singleton.
Defined.


Lemma index_kmers_buffer_flush_witness :
  let index := {| index_db := []; index_kmer_size := None |} in
  let occurrences := replicate (Z.to_nat 100001) occurrence_ACG in
  let st := foldl cache_kmer {| buffer := replicate 2 []; indexer_index := index |}
                  occurrences in
  let rest := [occurrence_ACG; occurrence_ACG] in
  let enumerate := fun (g : VG) (kmer_size : Z) (path_only : bool) (edge_max stride : Z)
                       (allow_negatives : bool) => occurrences ++ rest in
  let g := {| vg_name := "a"; vg_graph := empty_graph |} in
  (cache_kmer {| buffer := [[]; []]; indexer_index := index |} occurrence_ACG =
   {| buffer := <[0%nat := [] ++ [kmer_match occurrence_ACG]]> [[]; []];
      indexer_index := index |}) /\
  (index_db (indexer_index st) =
     index_db index ++ [batch_kmer <$> (kmer_match <$> occurrences)] /\
   buffer st = replicate 2 [] /\
   index_db (indexer_index (flush_buffers st)) =
     index_db index ++ [batch_kmer <$> (kmer_match <$> occurrences)] ++ replicate 2 [] /\
   buffer (flush_buffers st) = []) /\
  (buffer (foldl cache_kmer {| buffer := replicate 2 []; indexer_index := index |}
                 (occurrences ++ rest)) =
     <[0%nat := kmer_match <$> rest]> (replicate 2 []) /\
   exists flushed,
     index_db (fst (index_kmers_lambda 2 enumerate 3 false 0 1 false index g)) =
       index_db index ++ [batch_kmer <$> (kmer_match <$> occurrences)] ++ flushed /\
     flushed ≡ₚ <[0%nat := batch_kmer <$> (kmer_match <$> rest)]> (replicate 2 [])).
Proof.
  intros index occurrences st rest enumerate g.
  destruct index_kmers_buffer_flush as (_ & Hstep & Hfull & _ & _ & Hrest).
  assert (Z.of_nat (length occurrences) = 100001) as Hlen.
  { unfold occurrences. rewrite length_replicate. lia. }
  assert (Forall (fun o => occ_tid o = 0%nat /\ allATGC (occ_kmer o) = true) occurrences)
    as Hvalid.
  { unfold occurrences. apply Forall_replicate. split; reflexivity. }
  split; [|split].
  - apply (Hstep {| buffer := [[]; []]; indexer_index := index |} occurrence_ACG []).
    + reflexivity.
    + reflexivity.
    + unfold buffer_max_size. simpl. lia.
  - apply (Hfull 2%nat 0%nat occurrences index).
    + lia.
    + exact Hlen.
    + exact Hvalid.
  - apply (Hrest 2%nat enumerate 3 false 0 1 false 0%nat index g occurrences rest).
    + lia.
    + reflexivity.
    + exact Hlen.
    + simpl. lia.
    + apply Forall_app. split; [exact Hvalid|]. repeat constructor.
Defined.

Lemma text_export_record_witness :
  let e := {| head_id := 7; tail_id := 8; streams := ∅ |} in
  let g := {| vg_name := "g"; vg_graph := empty_graph |} in
  one_position g 2 false 0 1 false (head_id e) (tail_id e) = (7, 8, [position_AC]) /\
  written cout (streams (fst (gcsa_out_old_lambda one_position 2 false false e g))) =
  written cout (streams e) +:+ lines (text_record 7 <$> [position_AC]).
Proof.
  intros e g. split; [reflexivity|].
  destruct text_export_record as (_ & Hlines & _).
  apply (Hlines one_position 2 false false e g 7 8 [position_AC]). reflexivity.
Defined.

(** The line of this position. *)
Example text_export_record_example :
  write_kmer 7 position_AC =
  "AC" +:+ String TAB "" +:+ "1:0" +:+ String TAB "" +:+ "$" +:+ String TAB "" +:+
  "A,C" +:+ String TAB "" +:+ "7:0".
Proof. vm_compute. done. Qed.

Lemma gcsa_out_writes_to_cout_only_witness :
  let w := {| disk := ∅; cin := single_node 1 |} in
  (1%nat : ostream) <> cout /\
  untouched 1%nat ∅
    (streams (captured (write_gcsa_out_old one_position 1%nat 2 false false 7 8 ["-"] ∅ w))) /\
  untouched 1%nat ∅
    (streams (captured (write_gcsa_out_handle unit (fun _ => "AC")
                          (fun g _ head tail => (g, head, tail)) (fun _ _ _ _ => [tt])
                          1%nat 2 false false 7 8 ["-"] ∅ w))).
Proof.
  intros w. split; [discriminate|].
  destruct (gcsa_out_writes_to_cout_only one_position unit (fun _ => "AC")
              (fun g _ head tail => (g, head, tail)) (fun _ _ _ _ => [tt])
              1%nat 2 false false 7 8 ["-"] ∅ w) as (_ & _ & _ & _ & _ & Hout).
  apply Hout. discriminate.
Defined.

(** * More of the code *)

(** ** The traversals *)

Section TraversalFacts.

Context {S : Type}.
Variable lambda : S -> VG -> S * VG.

Lemma for_each_reads filenames s w (stdin_read : bool) :
  let r := for_each lambda filenames s
             {| disk := disk w; cin := if stdin_read then empty_graph else cin w |} in
  captured r = foldl (fun s g => fst (lambda s g)) s
                     (fst (graphs_read w stdin_read filenames)) /\
  thrown r = snd (graphs_read w stdin_read filenames) /\
  disk (world r) = disk w /\
  cin (world r) =
    if (stdin_read
        || bool_decide ("-" ∈ vg_name <$> fst (graphs_read w stdin_read filenames)))%bool
    then empty_graph else cin w.
Proof.
  revert s stdin_read. induction filenames as [|name rest IH]; intros s stdin_read.
  { simpl. rewrite orb_false_r. done. }
  cbn [for_each graphs_read]. unfold load, read_at. cbn [disk cin].
  destruct (decide (name = "-")) as [->|Hname].
  - unfold set_name. cbn [vg_graph].
    destruct (lambda s _) as [s' g'] eqn:Hstep.
    specialize (IH s' true). cbn [orb] in IH.
    rewrite bool_decide_true by done. rewrite orb_true_r.
    destruct (graphs_read w true rest) as [gs what]. cbn [fst snd foldl] in *.
    rewrite Hstep. cbn [fst]. rewrite orb_true_r.
    destruct IH as (-> & -> & -> & ->). done.
  - destruct (disk w !! name) as [content|] eqn:Hcontent.
    + unfold set_name. cbn [vg_graph].
      destruct (lambda s _) as [s' g'] eqn:Hstep.
      specialize (IH s' stdin_read).
      rewrite bool_decide_false by done. rewrite orb_false_r.
      destruct (graphs_read w stdin_read rest) as [gs what]. cbn [fst snd foldl] in *.
      rewrite Hstep. cbn [fst].
      destruct IH as (-> & -> & -> & ->). split; [done|]. split; [done|]. split; [done|].
      rewrite fmap_cons. cbn [vg_name].
      replace (bool_decide ("-" ∈ name :: (vg_name <$> gs)))
        with (bool_decide ("-" ∈ vg_name <$> gs)); [done|].
      apply bool_decide_ext. rewrite elem_of_cons. split; [by right|].
      intros [Heq|Hin]; [by destruct Hname|done].
    + cbn. rewrite orb_false_r. done.
Qed.

(** X1.  A read-only traversal is a fold of its action over the graphs it
    reads, in the order of the list, up to the first file that cannot be
    opened: what the action does to a graph has no effect on what is read
    after it.  A named file is read again every time it is named; standard
    input gives its graph the first time it is named and an empty graph
    after that. *)
Theorem for_each_fold filenames s w :
  captured (for_each lambda filenames s w) =
    foldl (fun s g => fst (lambda s g)) s (fst (graphs_read w false filenames)) /\
  thrown (for_each lambda filenames s w) = snd (graphs_read w false filenames).
Proof.
  destruct (for_each_reads filenames s w false) as (Hcaptured & Hthrown & _).
  cbn [orb] in *. destruct w as [d c]. done.
Qed.

(** X2.  A read-only traversal writes nothing: the named files are what
    they were, also when it throws, and standard input is used up exactly
    when "-" is among the names it got to. *)
Theorem for_each_writes_nothing filenames s w :
  disk (world (for_each lambda filenames s w)) = disk w /\
  cin (world (for_each lambda filenames s w)) =
    if bool_decide ("-" ∈ vg_name <$> fst (graphs_read w false filenames))
    then empty_graph else cin w.
Proof.
  destruct (for_each_reads filenames s w false) as (_ & _ & Hdisk & Hcin).
  cbn [orb] in *. destruct w as [d c]. done.
Qed.

Lemma transform_keeps_files filenames s w n :
  is_Some (disk w !! n) ->
  is_Some (disk (world (transform lambda filenames s w)) !! n).
Proof.
  revert s w. induction filenames as [|name rest IH]; intros s w Hn; simpl; [done|].
  destruct (load name w) as [[g w1]|] eqn:Hload; simpl; [|done].
  destruct (lambda s (set_name name g)) as [s' g']. apply IH. simpl.
  assert (disk w1 = disk w) as ->.
  { unfold load in Hload. destruct (decide (name = "-")).
    - by injection Hload as _ <-.
    - destruct (disk w !! name); [|done]. by injection Hload as _ <-. }
  destruct (decide (name = n)) as [->|Hne].
  - rewrite lookup_insert_eq. eauto.
  - by rewrite lookup_insert_ne.
Qed.

Lemma load_disk name w g w1 : load name w = Some (g, w1) -> disk w1 = disk w.
Proof.
  unfold load. destruct (decide (name = "-")).
  - by intros [= _ <-].
  - destruct (disk w !! name); [|done]. by intros [= _ <-].
Qed.

(** X3.  A mutating traversal touches the files it names and no others:
    a file that is not in the list is what it was, whatever the action does
    and also when the traversal throws; and no file is ever removed. *)
Theorem transform_touches_named_files_only filenames s w :
  (forall n, n ∉ filenames ->
             disk (world (transform lambda filenames s w)) !! n = disk w !! n) /\
  (forall n, is_Some (disk w !! n) ->
             is_Some (disk (world (transform lambda filenames s w)) !! n)).
Proof.
  split; [|intros n; apply transform_keeps_files].
  revert s w. induction filenames as [|name rest IH]; intros s w n Hn; simpl; [done|].
  apply not_elem_of_cons in Hn as [Hne Hn].
  destruct (load name w) as [[g w1]|] eqn:Hload; simpl; [|done].
  destruct (lambda s (set_name name g)) as [s' g']. rewrite IH by done. simpl.
  rewrite lookup_insert_ne by done. by rewrite (load_disk _ _ _ _ Hload).
Qed.

(** X4.  After a mutating traversal that did not throw, every name of the
    list names a file, "-" among them: the graph read from standard input
    is written to a file of that name. *)
Theorem transform_leaves_every_file filenames s w n :
  thrown (transform lambda filenames s w) = None ->
  n ∈ filenames ->
  is_Some (disk (world (transform lambda filenames s w)) !! n).
Proof.
  revert s w. induction filenames as [|name rest IH]; intros s w Hthrown Hn.
  { by apply elem_of_nil in Hn. }
  simpl in *. destruct (load name w) as [[g w1]|] eqn:Hload; simpl in *; [|done].
  destruct (lambda s (set_name name g)) as [s' g'].
  apply elem_of_cons in Hn as [->|Hn]; [|by apply IH].
  apply transform_keeps_files. simpl. rewrite lookup_insert_eq. eauto.
Qed.

(** X5.  Under an action that leaves the graphs as they are, a mutating
    traversal of named files leaves the world as it was: every file is
    written back with the graph it held. *)
Theorem transform_same_graphs filenames s w :
  (forall s g, vg_graph (snd (lambda s g)) = vg_graph g) ->
  "-" ∉ filenames ->
  world (transform lambda filenames s w) = w.
Proof.
  intros Hsame. revert s w.
  induction filenames as [|name rest IH]; intros s w Hstdin; simpl; [done|].
  apply not_elem_of_cons in Hstdin as [Hname Hstdin].
  unfold load. rewrite decide_False by done.
  destruct (disk w !! name) as [content|] eqn:Hcontent; simpl; [|done].
  destruct (lambda s _) as [s' g'] eqn:Hstep.
  pose proof (Hsame s (set_name name {| vg_name := ""; vg_graph := content |})) as Hg.
  rewrite Hstep in Hg. simpl in Hg.
  replace (serialize_to name g' w) with w; [by apply IH|].
  unfold serialize_to. rewrite Hg, insert_id by done. by destruct w.
Qed.

(** X6.  On a list that names no file twice, the mutating traversal shows
    its action the graphs the read-only traversal shows it, in the same
    order: both end with the same captured state and the same failure, if
    any. *)
Theorem transform_reads_like_for_each filenames s w :
  NoDup filenames ->
  captured (transform lambda filenames s w) = captured (for_each lambda filenames s w) /\
  thrown (transform lambda filenames s w) = thrown (for_each lambda filenames s w).
Proof.
  intros Hnodup.
  cut (forall w', (forall n, n ∈ filenames -> content w n = content w' n) ->
         captured (transform lambda filenames s w) =
           captured (for_each lambda filenames s w') /\
         thrown (transform lambda filenames s w) =
           thrown (for_each lambda filenames s w')).
  { intros Hcut. by apply Hcut. }
  revert s w Hnodup.
  induction filenames as [|name rest IH]; intros s w Hnodup w' Hcontent; simpl; [done|].
  apply NoDup_cons in Hnodup as [Hfresh Hnodup].
  pose proof (Hcontent name ltac:(by left)) as Hhead.
  unfold load. unfold content in Hhead.
  destruct (decide (name = "-")) as [->|Hname].
  - injection Hhead as Hcin. rewrite <- Hcin. unfold set_name. simpl.
    destruct (lambda s _) as [s' g']. apply IH; [done|].
    intros n Hn. assert (n <> "-") as Hne by (intros ->; done).
    unfold content, serialize_to. simpl. rewrite !decide_False by done.
    rewrite lookup_insert_ne by done.
    specialize (Hcontent n ltac:(by right)). unfold content in Hcontent.
    by rewrite !decide_False in Hcontent by done.
  - rewrite <- Hhead. destruct (disk w !! name) as [c|]; simpl; [|done].
    destruct (lambda s _) as [s' g']. apply IH; [done|].
    intros n Hn. assert (n <> name) as Hne by (intros ->; done).
    specialize (Hcontent n ltac:(by right)). rewrite <- Hcontent.
    unfold content, serialize_to. simpl.
    destruct (decide (n = "-")); [done|]. by rewrite lookup_insert_ne.
Qed.

End TraversalFacts.

(** ** The path splitter *)

Lemma taken_mappings_match paths_to_take graph N m :
  (N, m) ∈ taken_mappings paths_to_take graph -> paths_to_take N = true.
Proof.
  unfold taken_mappings. intros (p & Hm & Hp)%list_elem_of_bind.
  apply list_elem_of_fmap in Hm as (m' & [= -> _] & _).
  apply list_elem_of_In, filter_In in Hp as [_ Hp]. done.
Qed.

Lemma to_xg_from_only_matching paths_to_take moved_from filenames files st N :
  paths_to_take N = false ->
  mappings st !! N = None ->
  mappings (fst (to_xg_from paths_to_take moved_from filenames files st)) !! N = None.
Proof.
  intros Hother. revert st.
  induction filenames as [|name rest IH]; intros st Hnone; simpl; [done|].
  destruct (files !! name) as [chunks|]; [|done].
  apply IH. rewrite reconstitute_mappings, foldl_handle_graph. cbn [mappings].
  rewrite lookup_file_all_other; [by rewrite Hnone|].
  intros m (chunk & Hm & _)%list_elem_of_bind.
  apply taken_mappings_match in Hm. congruence.
Qed.

(** X7.  Whatever the files hold and whatever happens on the way, [to_xg]
    leaves alone the entries of [removed_paths] under names that do not
    match the pattern, and keeps no table for them. *)
Theorem to_xg_leaves_other_names paths_to_take moved_from filenames files removed N :
  paths_to_take N = false ->
  removed_paths (fst (to_xg paths_to_take moved_from filenames files removed)) !! N =
    removed !! N /\
  mappings (fst (to_xg paths_to_take moved_from filenames files removed)) !! N = None.
Proof.
  intros Hother.
  assert (mappings (fst (to_xg paths_to_take moved_from filenames files removed)) !! N
          = None) as Hnone.
  { unfold to_xg. by apply to_xg_from_only_matching. }
  split; [|done]. unfold to_xg in *. by rewrite to_xg_from_untouched.
Qed.

Lemma kept_nothing_taken graph : kept (fun _ => false) graph = graph.
Proof.
  unfold kept. destruct graph as [ns es ps]. simpl. f_equal.
  induction ps as [|p ps IH]; simpl; [done|]. by rewrite IH.
Qed.

(** X8.  [to_xg] without a pattern takes no path: every chunk of every
    file is handed to the index builder as it was read, in order, and no
    Path is handed back. *)
Theorem to_xg_all_ships_everything moved_from filenames files :
  (forall name, name ∈ filenames -> is_Some (files !! name)) ->
  snd (to_xg_all moved_from filenames files) = None /\
  shipped (fst (to_xg_all moved_from filenames files)) = chunks_of files filenames /\
  removed_paths (fst (to_xg_all moved_from filenames files)) = ∅ /\
  mappings (fst (to_xg_all moved_from filenames files)) = ∅.
Proof.
  intros Hfiles. unfold to_xg_all.
  destruct (to_xg_from_shipped (fun _ => false) moved_from filenames files
              {| mappings := ∅; removed_paths := ∅; shipped := [] |} Hfiles)
    as [Hnone Hshipped].
  split; [done|]. split.
  - unfold to_xg. rewrite Hshipped. cbn [shipped app].
    erewrite list_fmap_ext; [apply list_fmap_id|].
    intros i chunk _. apply kept_nothing_taken.
  - unfold to_xg.
    assert (forall N,
               mappings (fst (to_xg_from (fun _ => false) moved_from filenames files
                                {| mappings := ∅; removed_paths := ∅; shipped := [] |}))
                 !! N = None) as Hempty.
    { intros N. by apply to_xg_from_only_matching. }
    split; apply map_eq; intros N; rewrite lookup_empty; [|apply Hempty].
    by rewrite to_xg_from_untouched by apply Hempty.
Qed.

(** X9.  When a file cannot be opened, what the files before it gave is
    already there: their chunks were shipped, and their Paths are in
    [removed_paths], the tables being rebuilt after every file. *)
Theorem to_xg_hands_back_before_failure paths_to_take moved_from pre bad post
    files removed :
  (forall m, moved_from m = m) \/ (length pre <= 1)%nat ->
  (forall name, name ∈ pre -> is_Some (files !! name)) ->
  files !! bad = None ->
  let r := to_xg paths_to_take moved_from (pre ++ bad :: post) files removed in
  snd r = Some ("failed to open " +:+ bad) /\
  shipped (fst r) = kept paths_to_take <$> chunks_of files pre /\
  forall N,
    removed_paths (fst r) !! N =
    match file_all (arrivals_of paths_to_take files pre) ∅ !! N with
    | Some t => Some (rebuild N t)
    | None => removed !! N
    end.
Proof.
  intros Hmode Hfiles Hbad r. subst r. unfold to_xg.
  destruct (to_xg_from_shipped paths_to_take moved_from pre files
              {| mappings := ∅; removed_paths := removed; shipped := [] |} Hfiles)
    as [Hnone Hshipped].
  rewrite to_xg_from_open_failure by done. cbn [fst snd].
  split; [done|]. split; [done|].
  destruct (to_xg_record paths_to_take moved_from pre files removed Hmode Hfiles)
    as [_ Hrecord].
  exact Hrecord.
Qed.

(** X10.  Whatever a move leaves behind in the tables, the mappings of the
    file read last are handed back as they came: a mapping with a rank of
    its own, after which no mapping of its name arrives in that file
    without a rank or with the same rank, is in the Path handed back under
    its name. *)
Theorem to_xg_hands_back_last_file paths_to_take moved_from pre f chunks files
    removed N m before after :
  (forall name, name ∈ pre -> is_Some (files !! name)) ->
  files !! f = Some chunks ->
  (chunk ← chunks; taken_mappings paths_to_take chunk) = before ++ (N, m) :: after ->
  mapping_rank m <> 0 ->
  (forall m', (N, m') ∈ after ->
              mapping_rank m' <> 0 /\ mapping_rank m' <> mapping_rank m) ->
  exists record,
    removed_paths (fst (to_xg paths_to_take moved_from (pre ++ [f]) files removed)) !! N
      = Some record /\
    path_name record = N /\
    m ∈ path_mapping record.
Proof.
  intros Hfiles Hfile Harrivals Hrank Hafter. unfold to_xg.
  rewrite to_xg_from_app.
  destruct (to_xg_from_shipped paths_to_take moved_from pre files
              {| mappings := ∅; removed_paths := removed; shipped := [] |} Hfiles)
    as [Hnone _].
  cbv zeta. rewrite Hnone.
  set (st := fst (to_xg_from paths_to_take moved_from pre files
                    {| mappings := ∅; removed_paths := removed; shipped := [] |})).
  assert (forall N', StronglySorted Z.lt (fst <$> table_of (mappings st) N')) as Hsorted.
  { apply to_xg_from_sorted. intros N'. simpl. unfold table_of.
    rewrite lookup_empty. constructor. }
  rewrite (to_xg_from_present _ _ _ _ _ _ _ Hfile). cbn [to_xg_from fst].
  rewrite reconstitute_removed, foldl_handle_graph. cbn [mappings removed_paths].
  rewrite Harrivals.
  set (arrivals := before ++ (N, m) :: after).
  destruct (lookup_file_all_is_Some N arrivals (mappings st)) as [t Ht].
  { right. exists m. apply elem_of_app. right. by left. }
  rewrite Ht. exists (rebuild N t). split; [done|]. split; [done|].
  assert (t = table_of (file_all arrivals (mappings st)) N) as Htable.
  { unfold table_of. by rewrite Ht. }
  assert (rank_lookup (mapping_rank m) t = Some m) as Hheld.
  { rewrite Htable, rank_lookup_file_all. unfold arrivals.
    rewrite filed_app, last_filed_app. simpl.
    rewrite stamp_ranked by done.
    assert (last_filed N (mapping_rank m)
              (filed after (file_mapping N m (file_all before (mappings st)))) = None)
      as ->.
    { apply last_filed_None. intros m' Hm'.
      apply filed_elem in Hm' as (m0 & Hm0 & Hcase).
      destruct (Hafter _ Hm0) as [Hranked Hother].
      destruct Hcase as [->|?]; done. }
    by rewrite decide_True. }
  simpl. apply list_elem_of_fmap. exists (mapping_rank m, m). split; [done|].
  apply elem_of_rank_lookup; [|done].
  rewrite Htable. by apply file_all_sorted.
Qed.

(** ** The k-mer indexer *)

(** The matches the indexer holds: the ones written and the ones buffered. *)
Lemma concat_insert_perm {A} (l : list (list A)) i b x :
  l !! i = Some b ->
  concat (<[i := x]> l) ≡ₚ x ++ concat (<[i := []]> l).
Proof.
  revert i. induction l as [|a l IH]; intros [|i] Hi; try done; simpl in *.
  rewrite (IH _ Hi). apply Permutation_app_swap_app.
Qed.

Lemma concat_lookup_perm {A} (l : list (list A)) i b :
  l !! i = Some b -> concat l ≡ₚ b ++ concat (<[i := []]> l).
Proof.
  intros Hi. rewrite <- (concat_insert_perm l i b b Hi).
  by rewrite list_insert_id.
Qed.

Lemma concat_replicate_nil {A} n : concat (replicate n (@nil A)) = [].
Proof. induction n as [|n IH]; simpl; [done|]. exact IH. Qed.

Lemma cache_kmer_stored st o :
  (occ_tid o < length (buffer st))%nat ->
  length (buffer (cache_kmer st o)) = length (buffer st) /\
  concat (index_db (indexer_index (cache_kmer st o)))
  ++ (batch_kmer <$> concat (buffer (cache_kmer st o))) ≡ₚ
  (concat (index_db (indexer_index st)) ++ (batch_kmer <$> concat (buffer st)))
  ++ (batch_kmer <$> canonical_matches [o]).
Proof.
  intros Htid. unfold cache_kmer, canonical_matches. simpl.
  destruct (allATGC (occ_kmer o)) eqn:Hatgc.
  2:{ split; [done|]. csimpl. by rewrite app_nil_r. }
  destruct (lookup_lt_is_Some_2 _ _ Htid) as [buf Hbuf]. rewrite Hbuf.
  destruct (buffer_max_size <? Z.of_nat (length (buf ++ [kmer_match o]))); simpl;
    (split; [by rewrite length_insert|]).
  - rewrite concat_app. simpl. rewrite app_nil_r, fmap_app. csimpl.
    rewrite (concat_lookup_perm (buffer st) _ _ Hbuf), fmap_app.
    rewrite <- !app_assoc. apply Permutation_app_head, Permutation_app_head.
    apply Permutation_app_comm.
  - rewrite (concat_insert_perm (buffer st) _ _ _ Hbuf).
    rewrite (concat_lookup_perm (buffer st) _ _ Hbuf), !fmap_app. csimpl.
    rewrite <- !app_assoc. apply Permutation_app_head, Permutation_app_head.
    apply Permutation_app_comm.
Qed.

Lemma canonical_matches_app os1 os2 :
  canonical_matches (os1 ++ os2) = canonical_matches os1 ++ canonical_matches os2.
Proof. unfold canonical_matches. by rewrite List.filter_app, fmap_app. Qed.

Lemma cache_all_stored occurrences st :
  Forall (fun o => (occ_tid o < length (buffer st))%nat) occurrences ->
  length (buffer (foldl cache_kmer st occurrences)) = length (buffer st) /\
  concat (index_db (indexer_index (foldl cache_kmer st occurrences)))
  ++ (batch_kmer <$> concat (buffer (foldl cache_kmer st occurrences))) ≡ₚ
  (concat (index_db (indexer_index st)) ++ (batch_kmer <$> concat (buffer st)))
  ++ (batch_kmer <$> canonical_matches occurrences).
Proof.
  revert st. induction occurrences as [|o os IH]; intros st Htids.
  { simpl. split; [done|]. unfold canonical_matches. csimpl. by rewrite app_nil_r. }
  apply Forall_cons in Htids as [Ho Hos].
  destruct (cache_kmer_stored st o Ho) as [Hlen Hstep].
  destruct (IH (cache_kmer st o)) as [Hlen' Hrest].
  { by rewrite Hlen. }
  cbn [foldl]. split; [by rewrite Hlen'|].
  rewrite Hrest, Hstep.
  change (o :: os) with ([o] ++ os).
  rewrite canonical_matches_app, fmap_app. by rewrite <- !app_assoc.
Qed.

Lemma flush_buffers_stored st :
  concat (index_db (indexer_index (flush_buffers st))) =
  concat (index_db (indexer_index st)) ++ (batch_kmer <$> concat (buffer st)).
Proof.
  unfold flush_buffers. cbn [indexer_index].
  generalize (indexer_index st) as index. induction (buffer st) as [|buf bufs IH];
    intros index; simpl.
  - by rewrite app_nil_r.
  - rewrite IH. simpl. rewrite concat_app, fmap_app. simpl.
    by rewrite app_nil_r, <- app_assoc.
Qed.

(** X11.  Nothing is lost and nothing is made up: what the work on a graph
    adds to the database is, up to the order, one entry for every
    occurrence of canonical symbols that the workers met, however they took
    turns and however often a buffer was flushed on the way. *)
Theorem index_kmers_keeps_every_match thread_count enumerate kmer_size path_only
    edge_max stride allow_negatives index g :
  Forall (fun o => (occ_tid o < thread_count)%nat)
         (enumerate g kmer_size path_only edge_max stride allow_negatives) ->
  concat (index_db (fst (index_kmers_lambda thread_count enumerate kmer_size path_only
                           edge_max stride allow_negatives index g))) ≡ₚ
  concat (index_db index)
  ++ (batch_kmer <$>
        canonical_matches (enumerate g kmer_size path_only edge_max stride allow_negatives)).
Proof.
  intros Htids. unfold index_kmers_lambda. cbn [fst].
  rewrite flush_buffers_stored.
  destruct (cache_all_stored
              (enumerate g kmer_size path_only edge_max stride allow_negatives)
              {| buffer := replicate thread_count []; indexer_index := index |})
    as [_ Hstored].
  { simpl. by rewrite length_replicate. }
  rewrite Hstored. simpl. rewrite concat_replicate_nil. csimpl.
  by rewrite app_nil_r.
Qed.

Lemma cache_kmer_skips st o : allATGC (occ_kmer o) = false -> cache_kmer st o = st.
Proof. intros Hatgc. unfold cache_kmer. by rewrite Hatgc. Qed.

(** X12.  An occurrence with a symbol that is not canonical leaves no
    trace; and a graph without any canonical occurrence still has one
    batch written per worker, an empty one. *)
Theorem index_kmers_without_canonical_kmers thread_count enumerate kmer_size
    path_only edge_max stride allow_negatives index g :
  Forall (fun o => allATGC (occ_kmer o) = false)
         (enumerate g kmer_size path_only edge_max stride allow_negatives) ->
  index_db (fst (index_kmers_lambda thread_count enumerate kmer_size path_only
                   edge_max stride allow_negatives index g)) =
  index_db index ++ replicate thread_count [].
Proof.
  intros Hnone. unfold index_kmers_lambda. cbn [fst].
  assert (forall st,
             foldl cache_kmer st
                   (enumerate g kmer_size path_only edge_max stride allow_negatives) = st)
    as ->.
  { induction Hnone as [|o os Ho _ IH]; intros st; simpl; [done|].
    by rewrite cache_kmer_skips, IH. }
  unfold flush_buffers. cbn [indexer_index buffer]. apply flush_empty_buffers.
Qed.

Lemma for_each_invariant {S : Type} (lambda : S -> VG -> S * VG) (P : S -> Prop)
    filenames s w :
  (forall s g, P s -> P (fst (lambda s g))) ->
  P s -> P (captured (for_each lambda filenames s w)).
Proof.
  intros Hstep. revert s w.
  induction filenames as [|name rest IH]; intros s w Hs; simpl; [done|].
  destruct (load name w) as [[g w1]|]; simpl; [|done].
  destruct (lambda s (set_name name g)) as [s' g'] eqn:Hlambda.
  apply IH. specialize (Hstep s (set_name name g) Hs). by rewrite Hlambda in Hstep.
Qed.

Lemma cache_kmer_kmer_size st o :
  index_kmer_size (indexer_index (cache_kmer st o)) =
  index_kmer_size (indexer_index st).
Proof.
  unfold cache_kmer. destruct (allATGC _); [|done].
  destruct (buffer st !! occ_tid o); [|done]. by destruct (_ <? _).
Qed.

Lemma index_kmers_lambda_kmer_size thread_count enumerate kmer_size path_only
    edge_max stride allow_negatives index g :
  index_kmer_size (fst (index_kmers_lambda thread_count enumerate kmer_size path_only
                          edge_max stride allow_negatives index g)) =
  index_kmer_size index.
Proof.
  unfold index_kmers_lambda. cbn [fst].
  assert (forall st, index_kmer_size (indexer_index (flush_buffers st)) =
                     index_kmer_size (indexer_index st)) as ->.
  { intros st. unfold flush_buffers. cbn [indexer_index].
    generalize (indexer_index st). induction (buffer st) as [|buf bufs IH];
      intros idx; simpl; [done|]. by rewrite IH. }
  assert (forall os st, index_kmer_size (indexer_index (foldl cache_kmer st os)) =
                        index_kmer_size (indexer_index st)) as ->; [|done].
  induction os as [|o os IH]; intros st; simpl; [done|].
  by rewrite IH, cache_kmer_kmer_size.
Qed.

(** X13.  [index_kmers] has the index remember the k-mer size when all
    graphs were worked on, and only then: when a file could not be opened,
    the index remembers what it remembered before, though the k-mers of the
    files before that one are in its database. *)
Theorem index_kmers_remembers_kmer_size thread_count enumerate kmer_size path_only
    edge_max stride allow_negatives filenames index w :
  let r := index_kmers thread_count enumerate kmer_size path_only edge_max stride
                       allow_negatives filenames index w in
  (thrown r = None -> index_kmer_size (captured r) = Some kmer_size) /\
  (thrown r <> None -> index_kmer_size (captured r) = index_kmer_size index).
Proof.
  intros r. subst r. unfold index_kmers.
  set (action := index_kmers_lambda thread_count enumerate kmer_size path_only
                                    edge_max stride allow_negatives).
  destruct (thrown (for_each action filenames index w)) as [what|] eqn:Hthrown.
  - split; [by rewrite Hthrown|]. intros _.
    apply (for_each_invariant action
             (fun idx => index_kmer_size idx = index_kmer_size index)); [|done].
    intros idx g' <-. apply index_kmers_lambda_kmer_size.
  - split; [done|]. simpl. done.
Qed.

(** ** The exports *)

Lemma count_tabs_app s1 s2 : count_tabs (s1 +:+ s2) = (count_tabs s1 + count_tabs s2)%nat.
Proof.
  unfold count_tabs. by rewrite list_ascii_of_string_app, List.filter_app, length_app.
Qed.

Lemma count_tabs_cons c s :
  count_tabs (String c s) = ((if Ascii.eqb TAB c then 1 else 0) + count_tabs s)%nat.
Proof.
  unfold count_tabs. cbn [list_ascii_of_string List.filter].
  by destruct (Ascii.eqb TAB c).
Qed.

Lemma pretty_N_char_no_tab x : Ascii.eqb TAB (pretty_N_char x) = false.
Proof. unfold pretty_N_char. by repeat case_match. Qed.

Lemma pretty_N_go_no_tab x s : count_tabs s = 0%nat -> count_tabs (pretty_N_go x s) = 0%nat.
Proof.
  revert s. induction (N.lt_wf_0 x) as [x _ IH]; intros s Hs.
  assert (x = 0 \/ 0 < x)%N as [->|Hx] by lia.
  - by rewrite pretty_N_go_0.
  - rewrite pretty_N_go_step by done. apply IH.
    + by apply N.div_lt.
    + by rewrite count_tabs_cons, pretty_N_char_no_tab.
Qed.

(** A number in decimal has no TAB. *)
Lemma pretty_Z_no_tab (z : Z) : count_tabs (pretty z) = 0%nat.
Proof.
  assert (forall p : positive, count_tabs (pretty p) = 0%nat) as Hpos.
  { intros p. unfold pretty, pretty_positive, pretty, pretty_N.
    destruct (decide (N.pos p = 0%N)); [done|]. by apply pretty_N_go_no_tab. }
  destruct z as [|p|p]; unfold pretty, pretty_Z; [done|apply Hpos|].
  by rewrite count_tabs_app, Hpos.
Qed.

Lemma comma_joined_no_tab items :
  Forall (fun item => count_tabs item = 0%nat) items ->
  count_tabs (comma_joined items) = 0%nat.
Proof.
  induction 1 as [|x items Hx Hitems IH]; [done|].
  destruct items as [|y items]; [done|].
  change (comma_joined (x :: y :: items))
    with (x +:+ "," +:+ comma_joined (y :: items)).
  by rewrite !count_tabs_app, Hx, IH.
Qed.

Lemma char_column_no_tab none cs :
  count_tabs none = 0%nat ->
  Forall (fun c => c <> TAB) cs ->
  count_tabs (char_column none cs) = 0%nat.
Proof.
  intros Hnone Hcs. destruct cs as [|c cs]; [done|].
  unfold char_column. apply comma_joined_no_tab.
  apply Forall_fmap. eapply Forall_impl; [exact Hcs|].
  intros c' Hc'. simpl. rewrite count_tabs_cons.
  destruct (Ascii.eqb TAB c') eqn:Heq; [|done].
  apply Ascii.eqb_eq in Heq. congruence.
Qed.

(** X14.  Where the k-mer, the position and the next positions are free of
    TABs, and no character before or after is one, the record [write_kmer]
    makes has four TABs, no more: its five columns can be told apart. *)
Theorem write_kmer_four_tabs start_id kp :
  count_tabs (kp_kmer kp) = 0%nat ->
  count_tabs (kp_pos kp) = 0%nat ->
  Forall (fun c => c <> TAB) (kp_prev_chars kp) ->
  Forall (fun c => c <> TAB) (kp_next_chars kp) ->
  Forall (fun p => count_tabs p = 0%nat) (kp_next_positions kp) ->
  count_tabs (write_kmer start_id kp) = 4%nat.
Proof.
  intros Hkmer Hpos Hprev Hnext Hnexts.
  rewrite write_kmer_text_record. unfold text_record.
  rewrite !count_tabs_app, Hkmer, Hpos.
  rewrite (char_column_no_tab "$") by done.
  rewrite (char_column_no_tab "#") by done.
  assert (count_tabs (next_column start_id (kp_next_positions kp)) = 0%nat) as ->.
  { unfold next_column. destruct (kp_next_positions kp) as [|p ps] eqn:Hps.
    - by rewrite count_tabs_app, pretty_Z_no_tab.
    - by apply comma_joined_no_tab. }
  done.
Qed.

(** Lines written to a stream, whichever it is. *)
Lemma write_lines_to (o : ostream) (records : list string) (σ : gmap nat string) :
  written o (foldl (fun streams record => write_line o record streams) σ records) =
  written o σ +:+ lines records.
Proof.
  revert σ. induction records as [|record records IH]; intros σ; simpl.
  - by rewrite string_app_nil_r.
  - rewrite IH. unfold written at 1, write_line. rewrite lookup_insert_eq. simpl.
    by rewrite !string_app_assoc.
Qed.

Lemma write_lines_elsewhere (o o' : ostream) (records : list string)
    (σ : gmap nat string) :
  o' <> o ->
  foldl (fun streams record => write_line o record streams) σ records !! o' = σ !! o'.
Proof.
  intros Ho. revert σ. induction records as [|record records IH]; intros σ; simpl; [done|].
  rewrite IH. unfold write_line. by rewrite lookup_insert_ne.
Qed.

Lemma foldl_fmap_lines_to {A} (o : ostream) (f : A -> string) (l : list A)
    (σ : gmap nat string) :
  foldl (fun streams x => write_line o (f x) streams) σ l =
  foldl (fun streams record => write_line o record streams) σ (f <$> l).
Proof. revert σ. induction l as [|x l IH]; intros σ; simpl; [done|]. by rewrite IH. Qed.

(** X15.  Unlike the text exports, [write_gcsa_kmers_binary_handle] writes
    to the stream it is given: the k-mers of a graph go there, one per line
    and in order, and every other stream is left as it was by the whole
    traversal, also when it throws. *)
Theorem gcsa_kmers_binary_handle_writes_to_out
    (kmer_t : Type) (show_kmer : kmer_t -> string)
    (add_markers : VG -> Z -> Z -> Z -> VG * Z * Z)
    (kmers : VG -> Z -> Z -> Z -> list kmer_t)
    (out : ostream) kmer_size :
  (forall e g g' head tail,
      add_markers g kmer_size (head_id e) (tail_id e) = (g', head, tail) ->
      written out
        (streams (fst (gcsa_kmers_binary_handle_lambda kmer_t show_kmer add_markers kmers
                         out kmer_size e g))) =
      written out (streams e) +:+ lines (show_kmer <$> kmers g' kmer_size head tail)) /\
  (forall o path_only forward_only head tail filenames σ w,
      o <> out ->
      untouched o σ
        (streams (captured (write_gcsa_kmers_binary_handle kmer_t show_kmer add_markers
                              kmers out kmer_size path_only forward_only head tail
                              filenames σ w)))).
Proof.
  split.
  - intros e g g' head tail Hmark. unfold gcsa_kmers_binary_handle_lambda.
    rewrite Hmark. simpl. by rewrite foldl_fmap_lines_to, write_lines_to.
  - intros o path_only forward_only head tail filenames σ w Ho.
    unfold untouched, write_gcsa_kmers_binary_handle.
    rewrite for_each_untouched; [done|]. intros e g.
    unfold gcsa_kmers_binary_handle_lambda.
    destruct (add_markers _ _ _ _) as [[g' head'] tail']. simpl.
    by rewrite foldl_fmap_lines_to, write_lines_elsewhere.
Qed.



(** X17.  A traversal of a list in two parts is the traversal of the first
    part followed, unless that one threw, by the traversal of the second
    part from where the first one stopped; so for the two traversals of the
    set and for the loop of [to_xg]. *)
Theorem traversal_in_two_parts :
  (forall (S : Type) (lambda : S -> VG -> S * VG) l1 l2 s w,
      transform lambda (l1 ++ l2) s w =
      match thrown (transform lambda l1 s w) with
      | None => transform lambda l2 (captured (transform lambda l1 s w))
                          (world (transform lambda l1 s w))
      | Some _ => transform lambda l1 s w
      end) /\
  (forall (S : Type) (lambda : S -> VG -> S * VG) l1 l2 s w,
      for_each lambda (l1 ++ l2) s w =
      match thrown (for_each lambda l1 s w) with
      | None => for_each lambda l2 (captured (for_each lambda l1 s w))
                         (world (for_each lambda l1 s w))
      | Some _ => for_each lambda l1 s w
      end) /\
  (forall paths_to_take moved_from l1 l2 files st,
      to_xg_from paths_to_take moved_from (l1 ++ l2) files st =
      match snd (to_xg_from paths_to_take moved_from l1 files st) with
      | None => to_xg_from paths_to_take moved_from l2 files
                           (fst (to_xg_from paths_to_take moved_from l1 files st))
      | Some _ => to_xg_from paths_to_take moved_from l1 files st
      end).
Proof.
  split; [|split].
  - intros. apply transform_app.
  - intros. apply for_each_app.
  - intros. apply to_xg_from_app.
Qed.

(** ** More of the code, at work *)

Lemma transform_touches_named_files_only_witness :
  let w := {| disk := <["a" := nodes [1; 2]]> (<["b" := nodes [1]]> ∅);
              cin := empty_graph |} in
  disk (world (transform merge_lambda ["a"] 5 w)) !! "b" = disk w !! "b" /\
  is_Some (disk (world (transform merge_lambda ["a"] 5 w)) !! "a").
Proof.
  intros w.
  destruct (transform_touches_named_files_only merge_lambda ["a"] 5 w) as [Hother Hkept].
  split.
  - apply Hother. intros Hin. apply list_elem_of_singleton in Hin. discriminate.
  - apply Hkept. exists (nodes [1; 2]). reflexivity.
Defined.

Lemma transform_leaves_every_file_witness :
  let w := {| disk := <["a" := nodes [1; 2]]> ∅; cin := nodes [1] |} in
  thrown (transform merge_lambda ["a"; "-"] 0 w) = None /\
  "-" ∈ ["a"; "-"] /\
  is_Some (disk (world (transform merge_lambda ["a"; "-"] 0 w)) !! "-").
Proof.
  intros w.
  assert ("-" ∈ ["a"; "-"]) as Hin.
  { apply elem_of_cons. right. apply list_elem_of_singleton. reflexivity. }
  split; [reflexivity|]. split; [exact Hin|].
  apply (transform_leaves_every_file merge_lambda ["a"; "-"] 0 w "-").
  - reflexivity.
  - exact Hin.
Defined.

Lemma transform_same_graphs_witness :
  let count := fun (s : nat) (g : VG) => (Datatypes.S s, g) in
  let w := {| disk := <["a" := nodes [1; 2]]> (<["b" := nodes [1]]> ∅);
              cin := empty_graph |} in
  world (transform count ["a"; "b"; "a"] 0%nat w) = w.
Proof.
  intros count w. apply (transform_same_graphs count ["a"; "b"; "a"] 0%nat w).
  - intros s g. reflexivity.
  - intros Hin. repeat (apply elem_of_cons in Hin as [Heq|Hin]; [discriminate|]).
    by apply elem_of_nil in Hin.
Defined.

Lemma transform_reads_like_for_each_witness :
  let w := {| disk := <["a" := nodes [1; 2]]> (<["b" := nodes [1]]> ∅);
              cin := empty_graph |} in
  NoDup ["a"; "b"; "c"] /\
  captured (transform merge_lambda ["a"; "b"; "c"] 0 w) =
    captured (for_each merge_lambda ["a"; "b"; "c"] 0 w) /\
  thrown (transform merge_lambda ["a"; "b"; "c"] 0 w) =
    thrown (for_each merge_lambda ["a"; "b"; "c"] 0 w).
Proof.
  intros w.
  assert (NoDup ["a"; "b"; "c"]) as Hnodup by compute_done.
  split; [exact Hnodup|].
  apply (transform_reads_like_for_each merge_lambda ["a"; "b"; "c"] 0 w Hnodup).
Defined.

Lemma to_xg_leaves_other_names_witness :
  let files : gmap string (list Graph) :=
    {[ "f" := [single_path "P" [mapping_on 1 1]; single_path "Q" [mapping_on 4 1]] ]} in
  let removed : gmap string Path :=
    {[ "Q" := {| path_name := "Q"; path_mapping := [mapping_on 9 9] |} ]} in
  let r := to_xg (only "P") (fun m => m) ["f"; "g"] files removed in
  only "P" "Q" = false /\
  removed_paths (fst r) !! "Q" = removed !! "Q" /\
  mappings (fst r) !! "Q" = None.
Proof.
  intros files removed r. split; [reflexivity|].
  apply (to_xg_leaves_other_names (only "P") (fun m => m) ["f"; "g"] files removed "Q").
  reflexivity.
Defined.

Lemma to_xg_all_ships_everything_witness :
  let chunks := [single_path "P" [mapping_on 1 1]; single_path "Q" [mapping_on 4 1]] in
  let files : gmap string (list Graph) := {[ "f" := chunks ]} in
  let r := to_xg_all (fun _ => mapping_on 0 0) ["f"] files in
  snd r = None /\
  shipped (fst r) = chunks_of files ["f"] /\
  removed_paths (fst r) = ∅ /\
  mappings (fst r) = ∅.
Proof.
  intros chunks files.
  apply (to_xg_all_ships_everything (fun _ => mapping_on 0 0) ["f"] files).
  intros name Hname. apply list_elem_of_singleton in Hname. subst name.
  exists chunks. reflexivity.
Defined.

Lemma to_xg_hands_back_before_failure_witness :
  let chunks := [single_path "P" [mapping_on 1 1]; single_path "Q" [mapping_on 4 1]] in
  let files : gmap string (list Graph) := {[ "f" := chunks ]} in
  let r := to_xg (only "P") (fun _ => mapping_on 0 0) (["f"] ++ "g" :: ["h"]) files ∅ in
  snd r = Some ("failed to open " +:+ "g") /\
  shipped (fst r) = kept (only "P") <$> chunks_of files ["f"] /\
  forall N,
    removed_paths (fst r) !! N =
    match file_all (arrivals_of (only "P") files ["f"]) ∅ !! N with
    | Some t => Some (rebuild N t)
    | None => (∅ : gmap string Path) !! N
    end.
Proof.
  intros chunks files.
  apply (to_xg_hands_back_before_failure (only "P") (fun _ => mapping_on 0 0)
           ["f"] "g" ["h"] files ∅).
  - right. simpl. lia.
  - intros name Hname. apply list_elem_of_singleton in Hname. subst name.
    exists chunks. reflexivity.
  - reflexivity.
Defined.

Lemma to_xg_hands_back_last_file_witness :
  let files : gmap string (list Graph) :=
    {[ "f" := [single_path "P" [mapping_on 1 1]];
       "g" := [single_path "P" [mapping_on 2 2; mapping_on 3 3]] ]} in
  exists record,
    removed_paths (fst (to_xg (only "P") (fun _ => mapping_on 0 0) (["f"] ++ ["g"])
                          files ∅)) !! "P" = Some record /\
    path_name record = "P" /\
    mapping_on 2 2 ∈ path_mapping record.
Proof.
  intros files.
  apply (to_xg_hands_back_last_file (only "P") (fun _ => mapping_on 0 0) ["f"] "g"
           [single_path "P" [mapping_on 2 2; mapping_on 3 3]] files ∅ "P"
           (mapping_on 2 2) [] [("P", mapping_on 3 3)]).
  - intros name Hname. apply list_elem_of_singleton in Hname. subst name.
    exists [single_path "P" [mapping_on 1 1]]. reflexivity.
  - reflexivity.
  - reflexivity.
  - discriminate.
  - intros m' Hm'. apply list_elem_of_singleton in Hm'. injection Hm' as ->.
    split; discriminate.
Defined.

Lemma index_kmers_keeps_every_match_witness :
  let enumerate := fun (g : VG) (kmer_size : Z) (path_only : bool) (edge_max stride : Z)
                       (allow_negatives : bool) =>
    [occurrence_ACG;
     {| occ_tid := 1%nat; occ_kmer := "ANG"; occ_node_id := 2;
        occ_backward := false; occ_p := 0 |};
     {| occ_tid := 1%nat; occ_kmer := "CGT"; occ_node_id := 2;
        occ_backward := true; occ_p := 1 |}] in
  let index := {| index_db := [[("TTT", 1, 0)]]; index_kmer_size := None |} in
  let g := {| vg_name := "a"; vg_graph := nodes [1; 2] |} in
  concat (index_db (fst (index_kmers_lambda 2 enumerate 3 false 0 1 false index g))) ≡ₚ
  concat (index_db index)
  ++ (batch_kmer <$> canonical_matches (enumerate g 3 false 0 1 false)).
Proof.
  intros enumerate index g.
  apply (index_kmers_keeps_every_match 2 enumerate 3 false 0 1 false index g).
  repeat constructor.
Defined.

Lemma index_kmers_without_canonical_kmers_witness :
  let enumerate := fun (g : VG) (kmer_size : Z) (path_only : bool) (edge_max stride : Z)
                       (allow_negatives : bool) =>
    [{| occ_tid := 1%nat; occ_kmer := "ANG"; occ_node_id := 2;
        occ_backward := false; occ_p := 0 |}] in
  let index := {| index_db := [[("TTT", 1, 0)]]; index_kmer_size := None |} in
  let g := {| vg_name := "a"; vg_graph := nodes [1; 2] |} in
  index_db (fst (index_kmers_lambda 2 enumerate 3 false 0 1 false index g)) =
  index_db index ++ replicate 2 [].
Proof.
  intros enumerate index g.
  apply (index_kmers_without_canonical_kmers 2 enumerate 3 false 0 1 false index g).
  repeat constructor.
Defined.

Lemma index_kmers_remembers_kmer_size_witness :
  let enumerate := fun (g : VG) (kmer_size : Z) (path_only : bool) (edge_max stride : Z)
                       (allow_negatives : bool) => [occurrence_ACG] in
  let index := {| index_db := []; index_kmer_size := Some 11 |} in
  let w := {| disk := <["a" := nodes [1; 2]]> ∅; cin := empty_graph |} in
  index_kmer_size (captured (index_kmers 2 enumerate 3 false 0 1 false ["a"] index w)) =
    Some 3 /\
  index_kmer_size (captured (index_kmers 2 enumerate 3 false 0 1 false ["a"; "b"] index w)) =
    Some 11.
Proof.
  intros enumerate index w. split.
  - pose proof (index_kmers_remembers_kmer_size 2 enumerate 3 false 0 1 false
                  ["a"] index w) as Hsize.
    cbv zeta in Hsize. destruct Hsize as [Hdone _]. apply Hdone. reflexivity.
  - pose proof (index_kmers_remembers_kmer_size 2 enumerate 3 false 0 1 false
                  ["a"; "b"] index w) as Hsize.
    cbv zeta in Hsize. destruct Hsize as [_ Hthrown]. apply Hthrown. discriminate.
Defined.

Lemma write_kmer_four_tabs_witness :
  count_tabs (write_kmer 7 position_AC) = 4%nat.
Proof.
  apply (write_kmer_four_tabs 7 position_AC).
  - reflexivity.
  - reflexivity.
  - constructor.
  - repeat constructor; discriminate.
  - constructor.
Defined.

Lemma gcsa_kmers_binary_handle_writes_to_out_witness :
  let show := fun kp : string => kp in
  let add_markers := fun (g : VG) (kmer_size head tail : Z) => (g, head + 1, tail + 2) in
  let kmers := fun (g : VG) (kmer_size head tail : Z) => ["AC"; "CG"] in
  let g := {| vg_name := "a"; vg_graph := nodes [1; 2] |} in
  let e := {| head_id := 0; tail_id := 0; streams := {[ 1%nat := "x" ]} |} in
  let w := {| disk := <["a" := nodes [1; 2]]> ∅; cin := empty_graph |} in
  written 1%nat
    (streams (fst (gcsa_kmers_binary_handle_lambda string show add_markers kmers
                     1%nat 2 e g))) =
    written 1%nat (streams e) +:+ lines (show <$> kmers g 2 1 2) /\
  untouched cout {[ cout := "y" ]}
    (streams (captured (write_gcsa_kmers_binary_handle string show add_markers kmers
                          1%nat 2 false false 0 0 ["a"; "b"] {[ cout := "y" ]} w))).
Proof.
  intros show add_markers kmers g e w.
  destruct (gcsa_kmers_binary_handle_writes_to_out string show add_markers kmers 1%nat 2)
    as [Hout Hother].
  split.
  - apply (Hout e g g 1 2). reflexivity.
  - apply (Hother cout false false 0 0 ["a"; "b"] {[ cout := "y" ]} w). discriminate.
Defined.

